(** * Progressive ad ranking over a bidirectional stream: model and properties

    A shallow embedding of the C++ client and server of the repository:
    - [AdGenerator] (src/cpp/server/ad_generator.cpp),
    - [AdsServiceImpl::GetAds] (src/cpp/server/ads_service_impl.cpp),
    - [AdsClient::sendContextMessages] and
      [AdsClient::receiveAdsListWithTimeout] (src/cpp/client/ads_client.cpp),
    - [logging::LogContext], [logging::DebugMode] and [logging::Logger]
      (src/cpp/common/logging.h).

    Doubles are IEEE binary64 (Rocq's primitive floats), [size_t] values are
    [N], [int] and [uint32_t] values are [Z] with the conversion written out,
    [std::string] is [string].  Logging calls are left out of the client and
    the server: they do not influence what is sent, buffered or returned; the
    logging classes are modelled on their own. *)

From Stdlib Require Import ZArith NArith List String Ascii Bool Lia.
From Stdlib Require Import Floats Uint63 DecimalString.
From Stdlib Require DecimalFacts DecimalPos.
Import ListNotations.

Local Open Scope string_scope.
Local Open Scope Z_scope.

(** ** Messages (ads.proto as used by the sources) *)

Module Context.
Record t : Type := Build
  { query : string; asin_id : string; understanding : string }.
End Context.

Module Ad.
Record t : Type := Build
  { asin_id : string; ad_id : string; score : float }.
End Ad.

Module AdsList.
(** [version] is a [uint32] field. *)
Record t : Type := Build { version : Z; ads : list Ad.t }.

(** [AdsList()]: the default-constructed message. *)
Definition default : t := {| version := 0; ads := [] |}.

Definition ads_size (l : t) : Z := Z.of_nat (List.length (ads l)).
End AdsList.

(** ** The parts of the C++ standard library the generator relies on

    [std::hash<std::string>], [std::mt19937] and the two distributions are
    implementation-defined; the model takes them as an interface.  The only
    law is the documented range of [std::uniform_int_distribution]. *)

Class CxxRuntime : Type :=
  { hasher : string -> N;
    mt19937 : Type;
    mt19937_seed : N -> mt19937;
    uniform_int_distribution : Z -> Z -> mt19937 -> Z * mt19937;
    uniform_real_distribution : float -> float -> mt19937 -> float * mt19937;
    uniform_int_distribution_range :
      forall a b g, a <= b ->
        a <= fst (uniform_int_distribution a b g) <= b }.

(** [std::to_string(int)]. *)
Definition to_string (z : Z) : string := NilZero.string_of_int (Z.to_int z).

Fixpoint fill (n : nat) (c : ascii) : string :=
  match n with
  | O => EmptyString
  | S n' => String c (fill n' c)
  end.

(** [os << std::setfill(c) << std::setw(w) << s]: pad on the left. *)
Definition setfill_setw (c : ascii) (w : nat) (s : string) : string :=
  fill (w - String.length s) c ++ s.

(** [std::max] and [std::min] on doubles, as the library defines them:
    [max(a,b) = (a < b) ? b : a] and [min(a,b) = (b < a) ? b : a]. *)
Definition std_max (a b : float) : float := if (a <? b)%float then b else a.
Definition std_min (a b : float) : float := if (b <? a)%float then b else a.

(** Conversion of an [int] and of a small [size_t] to [double]. *)
Definition double_of_int (z : Z) : float :=
  if (z <? 0)%Z then (- of_uint63 (Uint63.of_Z (- z)))%float
  else of_uint63 (Uint63.of_Z z).

Definition double_of_size_t (n : N) : float := of_uint63 (Uint63.of_Z (Z.of_N n)).

(** The literals [0.7] and [0.1] are the nearest binary64 values. *)
Definition lit_0_7 : float := 0x1.6666666666666p-1%float.
Definition lit_0_1 : float := 0x1.999999999999ap-4%float.

Definition string_empty (s : string) : bool :=
  match s with EmptyString => true | String _ _ => false end.

Section AdGenerator.
Context {R : CxxRuntime}.

Definition calculateScore (query asin_id understanding : string) (version : Z)
  : float :=
  let base_score :=
    (double_of_size_t (hasher (query ++ asin_id) mod 1000)%N / 1000)%float in
  let understanding_boost :=
    if negb (string_empty understanding)
    then (double_of_size_t (hasher understanding mod 200)%N / 1000)%float
    else 0%float in
  let version_multiplier := (lit_0_7 + double_of_int version * lit_0_1)%float in
  let final_score := ((base_score + understanding_boost) * version_multiplier)%float in
  std_max 0 (std_min 1 final_score).

Definition generateAdId (asin_id : string) (index : Z) : string :=
  let hash_value := hasher (asin_id ++ to_string index) in
  "AD" ++ setfill_setw "0" 8 (to_string (Z.of_N (hash_value mod 100000000)%N)).

(** One iteration of the [for] loop of [generateAds]: the ad of index [i]
    and the generator state after the draw. *)
Definition generate_one (context : Context.t) (version : Z) (i : Z)
           (gen : mt19937) : Ad.t * mt19937 :=
  let asin :=
    "B" ++ setfill_setw "0" 6
      (to_string (Z.of_N (hasher (Context.asin_id context ++ to_string i)
                          mod 1000000)%N)) in
  let ad_id := generateAdId asin i in
  let score := calculateScore (Context.query context) (Context.asin_id context)
                              (Context.understanding context) version in
  let '(variation, gen') := uniform_real_distribution (- lit_0_1) lit_0_1 gen in
  let score := (score + variation)%float in
  let score := std_max 0 (std_min 1 score) in
  ({| Ad.asin_id := asin; Ad.ad_id := ad_id; Ad.score := score |}, gen').

(** [for (int i = ...; i < num_ads; i++)] with [n] iterations left. *)
Fixpoint generate_loop (context : Context.t) (version : Z) (n : nat) (i : Z)
         (gen : mt19937) : list Ad.t :=
  match n with
  | O => []
  | S n' =>
      let '(ad, gen') := generate_one context version i gen in
      ad :: generate_loop context version n' (i + 1) gen'
  end.

Definition generateAds (context : Context.t) (version : Z) : AdsList.t :=
  let seed := hasher ((Context.query context ++ Context.asin_id context)
                      ++ to_string version) in
  let gen := mt19937_seed seed in
  let '(num_ads, gen) := uniform_int_distribution 5 10 gen in
  {| AdsList.version := version mod 2 ^ 32;
     AdsList.ads := generate_loop context version (Z.to_nat num_ads) 0 gen |}.
End AdGenerator.

(** ** VersionedBuffer: [std::map<uint32_t, AdsList>]

    An ordered map: the entries in increasing key order, as iteration over a
    [std::map] yields them. *)

Module Buffer.
Definition t : Type := list (Z * AdsList.t).

Definition empty (m : t) : bool :=
  match m with [] => true | _ :: _ => false end.

(** [m.find(k) != m.end()], with the entry found. *)
Fixpoint find (k : Z) (m : t) : option AdsList.t :=
  match m with
  | [] => None
  | (k', v') :: m' => if k' =? k then Some v' else find k m'
  end.

(** [m[k] = v]: insert at the key's place in the order, or overwrite. *)
Fixpoint assign (k : Z) (v : AdsList.t) (m : t) : t :=
  match m with
  | [] => [(k, v)]
  | (k', v') :: m' =>
      match k ?= k' with
      | Lt => (k, v) :: (k', v') :: m'
      | Eq => (k, v) :: m'
      | Gt => (k', v') :: assign k v m'
      end
  end.

(** [m.rbegin()]: the last entry in key order. *)
Fixpoint rbegin (m : t) : option (Z * AdsList.t) :=
  match m with
  | [] => None
  | [e] => Some e
  | _ :: m' => rbegin m'
  end.

Definition keys (m : t) : list Z := map fst m.

(** The representation invariant of the ordered map. *)
Fixpoint sorted (m : t) : Prop :=
  match m with
  | [] => True
  | (k, _) :: m' => (forall k', In k' (keys m') -> k < k') /\ sorted m'
  end.
End Buffer.

(** ** The stream, as the sender and the server handler see it

    A call on the stream is an event.  [Write] returns what the transport
    decides: [write_ok k] is the result of the [k]-th [Write] of the call
    (counted from 0).  A computation takes the number of writes made so far
    and returns its value, the new count and the events it produced. *)

Inductive Event (Out : Type) : Type :=
| EvGenerate (c : Context.t) (version : Z)   (* ad_generator_.generateAds(c, version) *)
| EvWrite (m : Out) (ok : bool)              (* stream->Write(m), and its result *)
| EvWritesDone                               (* stream->WritesDone() *)
| EvSleep (ms : Z)                           (* std::this_thread::sleep_for(ms) *)
| EvDetach (c : Context.t).                  (* std::thread(...).detach(), capturing c *)
Arguments EvGenerate {Out} c version.
Arguments EvWrite {Out} m ok.
Arguments EvWritesDone {Out}.
Arguments EvSleep {Out} ms.
Arguments EvDetach {Out} c.

Definition IO (Out A : Type) : Type :=
  (nat -> bool) -> nat -> A * nat * list (Event Out).

Definition ret {Out A} (a : A) : IO Out A := fun _ n => (a, n, []).

Definition bind {Out A B} (m : IO Out A) (f : A -> IO Out B) : IO Out B :=
  fun write_ok n =>
    let '(a, n1, t1) := m write_ok n in
    let '(b, n2, t2) := f a write_ok n1 in
    (b, n2, (t1 ++ t2)%list).

Notation "x <- m ;; k" := (bind m (fun x => k))
  (at level 61, m at next level, right associativity).
Notation "m ;;; k" := (bind m (fun _ => k))
  (at level 61, right associativity).

Definition Write {Out} (m : Out) : IO Out bool :=
  fun write_ok n => (write_ok n, S n, [EvWrite m (write_ok n)]).

Definition WritesDone {Out} : IO Out unit := fun _ n => (tt, n, [EvWritesDone]).

Definition sleep_for {Out} (ms : Z) : IO Out unit := fun _ n => (tt, n, [EvSleep ms]).

Definition detach {Out} (c : Context.t) : IO Out unit :=
  fun _ n => (tt, n, [EvDetach c]).

Definition trace {Out A} (m : IO Out A) (write_ok : nat -> bool) (n : nat)
  : list (Event Out) := snd (m write_ok n).

Definition value {Out A} (m : IO Out A) (write_ok : nat -> bool) (n : nat) : A :=
  fst (fst (m write_ok n)).

(** The messages handed to [Write], in order, whatever the result. *)
Fixpoint writes {Out} (tr : list (Event Out)) : list Out :=
  match tr with
  | [] => []
  | EvWrite m _ :: tr' => m :: writes tr'
  | _ :: tr' => writes tr'
  end.

(** The messages handed to [Write] after a [Write] that returned false. *)
Fixpoint writes_after_failure {Out} (tr : list (Event Out)) : list Out :=
  match tr with
  | [] => []
  | EvWrite _ false :: tr' => writes tr'
  | _ :: tr' => writes_after_failure tr'
  end.

Fixpoint writes_done {Out} (tr : list (Event Out)) : bool :=
  match tr with
  | [] => false
  | EvWritesDone :: _ => true
  | _ :: tr' => writes_done tr'
  end.

Fixpoint has_failed_write {Out} (tr : list (Event Out)) : bool :=
  match tr with
  | [] => false
  | EvWrite _ false :: _ => true
  | _ :: tr' => has_failed_write tr'
  end.

(** The arguments of the calls to the generator, in order. *)
Fixpoint generate_calls {Out} (tr : list (Event Out)) : list (Context.t * Z) :=
  match tr with
  | [] => []
  | EvGenerate c v :: tr' => (c, v) :: generate_calls tr'
  | _ :: tr' => generate_calls tr'
  end.

(** ** Client: [AdsClient::sendContextMessages] *)

Definition sendContextMessages (query asin_id understanding : string)
  : IO Context.t unit :=
  let context1 :=
    {| Context.query := query; Context.asin_id := asin_id;
       Context.understanding := "" |} in
  ok1 <- Write context1 ;;
  if ok1 then
    sleep_for 50 ;;;
    let context2 :=
      {| Context.query := query; Context.asin_id := asin_id;
         Context.understanding := understanding |} in
    ok2 <- Write context2 ;;
    if ok2 then WritesDone else ret tt
  else ret tt.

(** ** Server: [AdsServiceImpl::GetAds] *)

Inductive Status : Type := OK | INTERNAL (message : string).

Section Server.
Context {R : CxxRuntime}.

Definition generate (c : Context.t) (version : Z) : IO AdsList.t AdsList.t :=
  fun _ n => (generateAds c version, n, [EvGenerate c version]).

(** The body of the detached thread, started with a copy of
    [client_context]. *)
Definition version3_task (client_context : Context.t) : IO AdsList.t unit :=
  sleep_for 50 ;;;
  ads_v3 <- generate client_context 3 ;;
  _ <- Write ads_v3 ;;
  ret tt.

(** The [while (stream->Read(&client_context))] loop.  [incoming] is what
    the successive calls to [Read] deliver; when it is exhausted [Read]
    returns false.  The result of [Write] is not inspected.  The value is
    the number of contexts read.  The generator of the model raises no
    exception, so the [catch] that returns [INTERNAL] is never entered. *)
Fixpoint read_loop (incoming : list Context.t) (context_count : Z)
  : IO AdsList.t Z :=
  match incoming with
  | [] => ret context_count
  | client_context :: rest =>
      let context_count := context_count + 1 in
      if context_count =? 1 then
        ads_v1 <- generate client_context 1 ;;
        _ <- Write ads_v1 ;;
        read_loop rest context_count
      else if context_count =? 2 then
        ads_v2 <- generate client_context 2 ;;
        _ <- Write ads_v2 ;;
        detach client_context ;;;
        ret context_count                      (* break *)
      else read_loop rest context_count
  end.

Definition GetAds (incoming : list Context.t) : IO AdsList.t Status :=
  _ <- read_loop incoming 0 ;;
  sleep_for 60 ;;;
  ret OK.

(** The handler thread and the detached thread run concurrently from the
    [detach] on.  [sched] picks the thread that takes the next step
    ([true]: the handler); a thread that has finished leaves the other to
    run. *)
Fixpoint merge (sched : list bool) (main task : list (Event AdsList.t))
  : list (Event AdsList.t) :=
  match sched with
  | [] => (main ++ task)%list
  | pick :: sched' =>
      match main, task with
      | [], _ => task
      | _, [] => main
      | e :: main', f :: task' =>
          if pick then e :: merge sched' main' task
          else f :: merge sched' main task'
      end
  end.

Fixpoint split_detach (tr : list (Event AdsList.t))
  : option (list (Event AdsList.t) * Context.t * list (Event AdsList.t)) :=
  match tr with
  | [] => None
  | EvDetach c :: post => Some ([], c, post)
  | e :: tr' =>
      match split_detach tr' with
      | Some (pre, c, post) => Some (e :: pre, c, post)
      | None => None
      end
  end.

(** One session: the events of the handler, with those of the detached
    thread interleaved after the [detach] as [sched] says. *)
Definition session (incoming : list Context.t) (write_ok : nat -> bool)
           (sched : list bool) : list (Event AdsList.t) :=
  let main := trace (GetAds incoming) write_ok 0 in
  match split_detach main with
  | None => main
  | Some (pre, c, post) =>
      let task := trace (version3_task c) write_ok (List.length (writes pre)) in
      (pre ++ EvDetach c :: merge sched post task)%list
  end.

Definition sent_versions (tr : list (Event AdsList.t)) : list Z :=
  map AdsList.version (writes tr).
End Server.

(** ** Client: [AdsClient::receiveAdsListWithTimeout]

    Times are readings of [std::chrono::steady_clock], in nanoseconds.  The
    inbound half of the stream is the list of the messages still to be
    delivered, each with its arrival time; once they are all delivered the
    stream ends at [closed_at].  [Read] blocks: it returns when the next
    message is there (or the stream has ended), so the clock when a [Read]
    returns is the later of the time of the call and the arrival.  Between
    the return of a [Read] and the next reading of the clock the loop logs
    the message and copies it into the buffer: [work 0] is the time this
    takes for the next message read, [work 1] for the one after, and so on.
    [timeoutMs] is the draw of [generateRandomTimeout]. *)

Module Collector.
Record LoopState : Type := Build
  { adsListBuffer : Buffer.t;
    currentAdsList : AdsList.t;      (* the most recently received *)
    stopped_at : Z;                  (* clock when the loop was left *)
    unread : list (Z * AdsList.t) }. (* messages never read *)

(** [duration_cast<milliseconds>(currentTime - startTime)]: truncation. *)
Definition elapsed_ms (startTime currentTime : Z) : Z :=
  (currentTime - startTime) ÷ 1000000.

(** The handling times of the messages after the next one. *)
Definition later (work : nat -> N) : nat -> N := fun i => work (S i).

Fixpoint collect_loop (work : nat -> N) (timeoutMs startTime closed_at : Z)
         (inbound : list (Z * AdsList.t)) (currentTime : Z)
         (buffer : Buffer.t) (current : AdsList.t) : LoopState :=
  if timeoutMs <=? elapsed_ms startTime currentTime then
    (* elapsed >= timeoutDuration: break *)
    Build buffer current currentTime inbound
  else
    match inbound with
    | [] =>
        (* Read returned false: stream ended, break *)
        Build buffer current (Z.max currentTime closed_at) []
    | (arrival, adsList) :: rest =>
        let version := AdsList.version adsList in
        collect_loop (later work) timeoutMs startTime closed_at rest
          (Z.max currentTime arrival + Z.of_N (work 0%nat))
          (Buffer.assign version adsList buffer) adsList
    end.

Definition collect (work : nat -> N) (timeoutMs startTime closed_at : Z)
           (inbound : list (Z * AdsList.t)) : LoopState :=
  collect_loop work timeoutMs startTime closed_at inbound startTime []
               AdsList.default.

Definition receiveAdsListWithTimeout (work : nat -> N)
           (timeoutMs startTime closed_at : Z)
           (inbound : list (Z * AdsList.t)) : AdsList.t :=
  let st := collect work timeoutMs startTime closed_at inbound in
  if negb (Buffer.empty (adsListBuffer st)) then
    match Buffer.rbegin (adsListBuffer st) with
    | Some (finalVersion, finalResult) => finalResult
    | None => AdsList.default
    end
  else AdsList.default.
End Collector.

(** ** Client: [AdsClient::generateRandomTimeout]

    The function keeps a static engine; [gen] is its state at the call, and
    the state after the draw is returned with the value. *)

Section RandomTimeout.
Context {R : CxxRuntime}.

Definition generateRandomTimeout (gen : mt19937) : Z * mt19937 :=
  uniform_int_distribution 30 120 gen.
End RandomTimeout.

(** ** The two ends wired together

    The peer reads the messages whose [Write] succeeded, in order. *)

Fixpoint delivered {Out} (tr : list (Event Out)) : list Out :=
  match tr with
  | [] => []
  | EvWrite m true :: tr' => m :: delivered tr'
  | _ :: tr' => delivered tr'
  end.

(** ** Logging: [logging::LogContext] (src/cpp/common/logging.h)

    [context_] is a [std::map<std::string, std::string>]: the entries in
    increasing key order, keys compared as [std::string] does (byte by byte,
    a proper prefix first).  The [double] overload of [add], which formats
    with [std::fixed], is left out. *)

Module LogContext.
Definition t : Type := list (string * string).

(** [context_[key] = value]. *)
Fixpoint assign (key value : string) (m : t) : t :=
  match m with
  | [] => [(key, value)]
  | (k', v') :: m' =>
      match String.compare key k' with
      | Lt => (key, value) :: (k', v') :: m'
      | Eq => (key, value) :: m'
      | Gt => (k', v') :: assign key value m'
      end
  end.

Definition add (key value : string) (m : t) : t := assign key value m.



(** The loop of [build]: [first] is the flag of the same name. *)
Fixpoint build_entries (first : bool) (m : t) : string :=
  match m with
  | [] => ""
  | (k, v) :: m' =>
      ((if first then "" else ", ") ++ k ++ "=" ++ v ++ build_entries false m')%string
  end.

Definition build (m : t) (message : string) : string :=
  match m with
  | [] => message
  | _ :: _ => (message ++ " [" ++ build_entries true m ++ "]")%string
  end.

Definition keys (m : t) : list string := map fst m.

(** The representation invariant of the ordered map. *)
Fixpoint sorted (m : t) : Prop :=
  match m with
  | [] => True
  | (k, _) :: m' =>
      (forall k', In k' (keys m') -> String.compare k k' = Lt) /\ sorted m'
  end.
End LogContext.

(** ** Logging: [logging::DebugMode] and [logging::Logger]

    [Env] holds what [std::getenv] returns for the two variables read. *)

Inductive Level : Type := DEBUG | INFO | WARN | ERROR.

(** The value of the enumerator, which [<] and [<=] on [Level] compare. *)
Definition level_rank (l : Level) : Z :=
  match l with DEBUG => 0 | INFO => 1 | WARN => 2 | ERROR => 3 end.

Definition level_ltb (a b : Level) : bool := level_rank a <? level_rank b.
Definition level_eqb (a b : Level) : bool := level_rank a =? level_rank b.

Record Env : Type := { LOG_LEVEL : option string; DEBUG_MODE : option string }.

Module DebugMode.
Definition is_mode (name : string) (env : Env) : bool :=
  match DEBUG_MODE env with
  | Some debug_mode => String.eqb debug_mode name
  | None => false
  end.

Definition is_verbose : Env -> bool := is_mode "VERBOSE".
Definition is_performance : Env -> bool := is_mode "PERFORMANCE".
Definition is_protocol : Env -> bool := is_mode "PROTOCOL".
Definition is_errors_only : Env -> bool := is_mode "ERRORS_ONLY".

Definition get_current_mode (env : Env) : string :=
  match DEBUG_MODE env with
  | Some debug_mode => debug_mode
  | None => "NORMAL"
  end.
End DebugMode.

Module Logger.
Record t : Type := Build { component_ : string; min_level_ : Level }.

Definition level_to_string (level : Level) : string :=
  match level with
  | DEBUG => "DEBUG"
  | INFO => "INFO"
  | WARN => "WARN"
  | ERROR => "ERROR"
  end.

(** [message.find(key) == std::string::npos]. *)
Definition find_npos (key message : string) : bool :=
  match String.index 0 key message with
  | Some _ => false
  | None => true
  end.

(** [log]: the line written to [std::cout] (without the end of line), or
    [None] when the message is filtered out.  [timestamp] and [thread_id]
    are what [get_timestamp] and [get_thread_id] return at the call. *)
Definition log (env : Env) (logger : t) (timestamp thread_id : string)
           (level : Level) (message : string) : option string :=
  if level_ltb level (min_level_ logger) then None
  else if DebugMode.is_performance env && level_eqb level DEBUG
          && (find_npos "elapsed_ms" message
              && find_npos "generation_ms" message
              && find_npos "duration_ms" message)
  then None
  else Some (timestamp ++ " [" ++ level_to_string level ++ "] "
             ++ "[" ++ component_ logger ++ "] [" ++ thread_id ++ "] "
             ++ message)%string.

Definition info env logger ts tid message := log env logger ts tid INFO message.
Definition warn env logger ts tid message := log env logger ts tid WARN message.
Definition error env logger ts tid message := log env logger ts tid ERROR message.


(** The level the constructor settles on. *)
Definition configured_level (env : Env) : Level :=
  let log_level :=
    match LOG_LEVEL env with Some s => s | None => "INFO" end in
  let min_level :=
    if String.eqb log_level "DEBUG" then DEBUG
    else if String.eqb log_level "INFO" then INFO
    else if String.eqb log_level "WARN" then WARN
    else if String.eqb log_level "ERROR" then ERROR
    else INFO in
  if DebugMode.is_errors_only env then ERROR
  else if DebugMode.is_verbose env then DEBUG
  else min_level.

(** The constructor: the logger, and what its closing call to [info]
    writes. *)
Definition make (env : Env) (timestamp thread_id component : string)
  : t * option string :=
  let log_level :=
    match LOG_LEVEL env with Some s => s | None => "INFO" end in
  let logger := Build component (configured_level env) in
  (logger,
   info env logger timestamp thread_id
        ("Logger configured [component=" ++ component ++ ", level=" ++ log_level
         ++ ", debug_mode=" ++ DebugMode.get_current_mode env ++ "]")%string).
End Logger.

(** ** Predicates used in the statements *)

(** A double in the closed interval [0.0, 1.0]. *)
Definition in_unit_interval (x : float) : bool :=
  ((0 <=? x) && (x <=? 1))%float.

(** What holds of the buffer after the messages [consumed] were read, the
    clock being [now]. *)
Definition buffer_inv (consumed : list (Z * AdsList.t)) (now : Z)
           (buffer : Buffer.t) : Prop :=
  Buffer.sorted buffer
  /\ (forall k v, In (k, v) buffer ->
        k = AdsList.version v /\ exists t, In (t, v) consumed /\ t <= now)
  /\ (forall t a, In (t, a) consumed ->
        In (AdsList.version a) (Buffer.keys buffer) /\ t <= now).

(** The last of the messages [consumed] that carries the version [k]. *)
Fixpoint last_with_version (k : Z) (consumed : list (Z * AdsList.t))
  : option AdsList.t :=
  match consumed with
  | [] => None
  | (_, a) :: rest =>
      match last_with_version k rest with
      | Some b => Some b
      | None => if AdsList.version a =? k then Some a else None
      end
  end.

(** A string made of decimal digits only. *)
Fixpoint all_digits (s : string) : bool :=
  match s with
  | EmptyString => true
  | String c s' =>
      ((48 <=? N_of_ascii c) && (N_of_ascii c <=? 57))%N && all_digits s'
  end.

(** The item identifier the loop of [generateAds] gives to the ad of index
    [i]. *)
Definition asin_of {R : CxxRuntime} (context : Context.t) (i : Z) : string :=
  "B" ++ setfill_setw "0" 6
    (to_string (Z.of_N (hasher (Context.asin_id context ++ to_string i)
                        mod 1000000)%N)).

(** The messages the collection loop reads: the walk of
    [Collector.collect_loop], keeping the messages read. *)
Fixpoint read_messages (work : nat -> N) (timeoutMs startTime : Z)
         (inbound : list (Z * AdsList.t)) (currentTime : Z)
  : list (Z * AdsList.t) :=
  if timeoutMs <=? Collector.elapsed_ms startTime currentTime then []
  else
    match inbound with
    | [] => []
    | (arrival, adsList) :: rest =>
        (arrival, adsList)
          :: read_messages (Collector.later work) timeoutMs startTime rest
               (Z.max currentTime arrival + Z.of_N (work 0%nat))
    end.

(** The clock at the head of the loop once the messages [msgs] have been
    read and handled, starting from [currentTime]. *)
Fixpoint clock_after (work : nat -> N) (msgs : list (Z * AdsList.t))
         (currentTime : Z) : Z :=
  match msgs with
  | [] => currentTime
  | (arrival, _) :: rest =>
      clock_after (Collector.later work) rest
                  (Z.max currentTime arrival + Z.of_N (work 0%nat))
  end.

(** The moment the cutover deadline passes: [timeoutMs] milliseconds after
    [startTime], in nanoseconds. *)
Definition deadline (startTime timeoutMs : Z) : Z :=
  startTime + timeoutMs * 1000000.

(** A handling time of a quarter of a millisecond for every message, for
    the concrete runs. *)
Definition quarter_ms : nat -> N := fun _ => 250000%N.

(** [adsListBuffer[version] = adsList] for one message read. *)
Definition store (buffer : Buffer.t) (m : Z * AdsList.t) : Buffer.t :=
  Buffer.assign (AdsList.version (snd m)) (snd m) buffer.

(** ** An executable runtime

    A small instance of the interface, used to run the model on concrete
    inputs: FNV-1a over the bytes of the string as the hash, and a Lehmer
    generator ([std::minstd_rand]'s recurrence) as the engine.  Every theorem
    below is proved for an arbitrary runtime. *)

Fixpoint fnv1a (s : string) (h : N) : N :=
  match s with
  | EmptyString => h
  | String c s' =>
      fnv1a s' ((N.lxor h (N_of_ascii c) * 1099511628211) mod 2 ^ 64)%N
  end.

Definition lehmer_next (g : Z) : Z := (48271 * g) mod 2147483647.

Definition lehmer_int (a b : Z) (g : Z) : Z * Z :=
  let g' := lehmer_next g in
  (if a <=? b then a + g' mod (b - a + 1) else a, g').

Definition lehmer_real (a b : float) (g : Z) : float * Z :=
  let g' := lehmer_next g in
  ((a + (b - a) * (of_uint63 (Uint63.of_Z g') / 2147483647))%float, g').

Lemma lehmer_int_range (a b g : Z) :
  a <= b -> a <= fst (lehmer_int a b g) <= b.
Proof.
  intros Hab. unfold lehmer_int. cbn [fst].
  destruct (Z.leb_spec a b) as [_|Hlt]; [|lia].
  pose proof (Z.mod_pos_bound (lehmer_next g) (b - a + 1)). lia.
Qed.

Definition reference_runtime : CxxRuntime :=
  {| hasher := fun s => fnv1a s 14695981039346656037%N;
     mt19937 := Z;
     mt19937_seed := fun seed => Z.of_N (seed mod 2 ^ 32)%N;
     uniform_int_distribution := lehmer_int;
     uniform_real_distribution := lehmer_real;
     uniform_int_distribution_range := lehmer_int_range |}.


(** A context that carries an understanding, for the concrete sessions. *)
Definition wanted : Context.t :=
  Context.Build "coffee maker" "B000123456" "espresso machine".

(** * Properties *)

(** ** Doubles: the clamp *)

Lemma ltb_leb (x y : float) : (x <? y)%float = true -> (x <=? y)%float = true.
Proof.
  rewrite FloatAxioms.ltb_spec, FloatAxioms.leb_spec. unfold SFltb, SFleb.
  destruct (SFcompare (Prim2SF x) (Prim2SF y)) as [[ | | ]|]; congruence.
Qed.

(** [std::max(0.0, std::min(1.0, x))] is in [0,1] for every double [x],
    infinities and NaN included. *)
Lemma clamp_in_unit_interval (x : float) :
  in_unit_interval (std_max 0 (std_min 1 x)) = true.
Proof.
  unfold std_max, std_min, in_unit_interval.
  destruct (x <? 1)%float eqn:Hhi.
  - destruct (0 <? x)%float eqn:Hlo.
    + now rewrite (ltb_leb _ _ Hlo), (ltb_leb _ _ Hhi).
    + reflexivity.
  - reflexivity.
Qed.

(** ** The generator *)

Section AdGeneratorFacts.
Context {R : CxxRuntime}.

Lemma generate_loop_length c v n i g :
  List.length (generate_loop c v n i g) = n.
Proof.
  revert i g. induction n as [|n IH]; intros i g; cbn [generate_loop].
  - reflexivity.
  - destruct (generate_one c v i g) as [ad g']. cbn [List.length].
    now rewrite IH.
Qed.

Lemma generate_one_score c v i g :
  in_unit_interval (Ad.score (fst (generate_one c v i g))) = true.
Proof.
  unfold generate_one.
  destruct (uniform_real_distribution (- lit_0_1) lit_0_1 g) as [var g'].
  cbn [fst Ad.score]. apply clamp_in_unit_interval.
Qed.

Lemma generate_loop_scores c v n i g :
  Forall (fun ad => in_unit_interval (Ad.score ad) = true)
         (generate_loop c v n i g).
Proof.
  revert i g. induction n as [|n IH]; intros i g; cbn [generate_loop].
  - constructor.
  - pose proof (generate_one_score c v i g) as Hs.
    destruct (generate_one c v i g) as [ad g']. constructor; [exact Hs | apply IH].
Qed.

(** The identifiers of the ad of index [i] use the context's [asin_id] and
    [i] only. *)
Lemma generate_one_ids c1 c2 v1 v2 i g1 g2 :
  Context.asin_id c1 = Context.asin_id c2 ->
  Ad.asin_id (fst (generate_one c1 v1 i g1))
  = Ad.asin_id (fst (generate_one c2 v2 i g2))
  /\ Ad.ad_id (fst (generate_one c1 v1 i g1))
     = Ad.ad_id (fst (generate_one c2 v2 i g2)).
Proof.
  intros Ha. unfold generate_one. rewrite Ha.
  destruct (uniform_real_distribution (- lit_0_1) lit_0_1 g1).
  destruct (uniform_real_distribution (- lit_0_1) lit_0_1 g2).
  cbn [fst Ad.asin_id Ad.ad_id]. split; reflexivity.
Qed.

Lemma generate_loop_ids c1 c2 v1 v2 n i g1 g2 :
  Context.asin_id c1 = Context.asin_id c2 ->
  map Ad.asin_id (generate_loop c1 v1 n i g1)
  = map Ad.asin_id (generate_loop c2 v2 n i g2)
  /\ map Ad.ad_id (generate_loop c1 v1 n i g1)
     = map Ad.ad_id (generate_loop c2 v2 n i g2).
Proof.
  intros Ha. revert i g1 g2.
  induction n as [|n IH]; intros i g1 g2; cbn [generate_loop].
  - split; reflexivity.
  - destruct (generate_one_ids c1 c2 v1 v2 i g1 g2 Ha) as [H1 H2].
    destruct (generate_one c1 v1 i g1) as [ad1 g1'].
    destruct (generate_one c2 v2 i g2) as [ad2 g2'].
    cbn [fst] in H1, H2. cbn [map].
    destruct (IH (i + 1) g1' g2') as [IH1 IH2].
    split; f_equal; assumption.
Qed.

Lemma generateAds_ads c v :
  exists g,
    AdsList.ads (generateAds c v)
    = generate_loop c v
        (Z.to_nat (fst (uniform_int_distribution 5 10
           (mt19937_seed (hasher ((Context.query c ++ Context.asin_id c)
                                  ++ to_string v))))))
        0 g.
Proof.
  unfold generateAds.
  destruct (uniform_int_distribution 5 10 _) as [num g].
  exists g. reflexivity.
Qed.

Lemma generateAds_version c v :
  AdsList.version (generateAds c v) = v mod 2 ^ 32.
Proof.
  unfold generateAds.
  destruct (uniform_int_distribution 5 10 _) as [num g]. reflexivity.
Qed.

(** C5: the generator is deterministic: two calls with the same query,
    item identifier, understanding and version return the same message,
    hence the same number of ads and, ad by ad, the same item
    identifiers, result identifiers and scores. *)
Theorem generateAds_deterministic (c1 c2 : Context.t) (v1 v2 : Z) :
  Context.query c1 = Context.query c2 ->
  Context.asin_id c1 = Context.asin_id c2 ->
  Context.understanding c1 = Context.understanding c2 ->
  v1 = v2 ->
  generateAds c1 v1 = generateAds c2 v2
  /\ AdsList.ads_size (generateAds c1 v1) = AdsList.ads_size (generateAds c2 v2)
  /\ map Ad.asin_id (AdsList.ads (generateAds c1 v1))
     = map Ad.asin_id (AdsList.ads (generateAds c2 v2))
  /\ map Ad.ad_id (AdsList.ads (generateAds c1 v1))
     = map Ad.ad_id (AdsList.ads (generateAds c2 v2))
  /\ map Ad.score (AdsList.ads (generateAds c1 v1))
     = map Ad.score (AdsList.ads (generateAds c2 v2)).
Proof.
  intros Hq Ha Hu Hv.
  assert (Heq : generateAds c1 v1 = generateAds c2 v2).
  { destruct c1 as [q1 a1 u1], c2 as [q2 a2 u2]. cbn in Hq, Ha, Hu.
    now subst. }
  rewrite Heq. repeat split; reflexivity.
Qed.

(** C6: every score of a generated message lies in [0.0, 1.0], for every
    query, item identifier, understanding (empty or not) and version; so
    does the value of [calculateScore]. *)
Theorem generateAds_scores_in_unit_interval (c : Context.t) (v : Z) :
  Forall (fun ad => in_unit_interval (Ad.score ad) = true)
         (AdsList.ads (generateAds c v))
  /\ in_unit_interval
       (calculateScore (Context.query c) (Context.asin_id c)
                       (Context.understanding c) v) = true.
Proof.
  split.
  - destruct (generateAds_ads c v) as [g ->]. apply generate_loop_scores.
  - apply clamp_in_unit_interval.
Qed.

(** C7: a generated message holds between 5 and 10 ads. *)
Theorem generateAds_count (c : Context.t) (v : Z) :
  5 <= AdsList.ads_size (generateAds c v) <= 10.
Proof.
  unfold AdsList.ads_size.
  destruct (generateAds_ads c v) as [g ->].
  rewrite generate_loop_length.
  pose proof (uniform_int_distribution_range 5 10
    (mt19937_seed (hasher ((Context.query c ++ Context.asin_id c)
                           ++ to_string v)))) as Hr.
  specialize (Hr ltac:(lia)). rewrite Z2Nat.id by lia. exact Hr.
Qed.

(** C10: the shape of a generated message does not depend on the
    understanding: with the same query, item identifier and version, two
    contexts give the same version, the same number of ads and, ad by ad,
    the same item identifiers and result identifiers. *)
Theorem generateAds_shape_independent_of_understanding
        (c1 c2 : Context.t) (v : Z) :
  Context.query c1 = Context.query c2 ->
  Context.asin_id c1 = Context.asin_id c2 ->
  AdsList.version (generateAds c1 v) = AdsList.version (generateAds c2 v)
  /\ AdsList.ads_size (generateAds c1 v) = AdsList.ads_size (generateAds c2 v)
  /\ map Ad.asin_id (AdsList.ads (generateAds c1 v))
     = map Ad.asin_id (AdsList.ads (generateAds c2 v))
  /\ map Ad.ad_id (AdsList.ads (generateAds c1 v))
     = map Ad.ad_id (AdsList.ads (generateAds c2 v)).
Proof.
  intros Hq Ha.
  rewrite !generateAds_version. unfold AdsList.ads_size.
  destruct (generateAds_ads c1 v) as [g1 ->].
  destruct (generateAds_ads c2 v) as [g2 ->].
  rewrite !generate_loop_length, <- Hq, <- Ha.
  destruct (generate_loop_ids c1 c2 v v
              (Z.to_nat (fst (uniform_int_distribution 5 10
                 (mt19937_seed (hasher ((Context.query c1 ++ Context.asin_id c1)
                                        ++ to_string v))))))
              0 g1 g2 Ha) as [H1 H2].
  repeat split; assumption.
Qed.
End AdGeneratorFacts.

(** The two theorems with hypotheses, on the executable runtime. *)
Lemma generateAds_deterministic_witness :
  @generateAds reference_runtime wanted 2
  = @generateAds reference_runtime
      (Context.Build "coffee maker" "B000123456" "espresso machine") 2
  /\ AdsList.ads_size (@generateAds reference_runtime wanted 2) = 10.
Proof.
  split; [|reflexivity].
  exact (proj1 (@generateAds_deterministic reference_runtime wanted
                  (Context.Build "coffee maker" "B000123456" "espresso machine")
                  2 2 eq_refl eq_refl eq_refl eq_refl)).
Defined.

Lemma generateAds_shape_independent_of_understanding_witness :
  let plain := Context.Build "coffee maker" "B000123456" "" in
  map Ad.asin_id (AdsList.ads (@generateAds reference_runtime wanted 1))
  = map Ad.asin_id (AdsList.ads (@generateAds reference_runtime plain 1))
  /\ map Ad.score (AdsList.ads (@generateAds reference_runtime wanted 1))
     <> map Ad.score (AdsList.ads (@generateAds reference_runtime plain 1)).
Proof.
  intros plain. split.
  - exact (proj1 (proj2 (proj2
      (@generateAds_shape_independent_of_understanding reference_runtime
         wanted plain 1 eq_refl eq_refl)))).
  - vm_compute. discriminate.
Defined.

(** ** The buffer *)

Section BufferFacts.
Import Buffer.

Lemma keys_assign k v m k' :
  In k' (keys (assign k v m)) <-> k' = k \/ In k' (keys m).
Proof.
  induction m as [|[k0 v0] m IH]; cbn [assign].
  - cbn. intuition.
  - destruct (Z.compare_spec k k0) as [->| |]; cbn [keys map fst In] in *.
    + intuition.
    + intuition.
    + rewrite IH. intuition.
Qed.

Lemma In_assign k v m k' v' :
  In (k', v') (assign k v m) -> (k' = k /\ v' = v) \/ In (k', v') m.
Proof.
  induction m as [|[k0 v0] m IH]; cbn [assign].
  - cbn. intros [[= <- <-]|[]]. now left.
  - destruct (k ?= k0); cbn [In].
    + intros [[= <- <-]|H]; [now left | right; now right].
    + intros [[= <- <-]|H]; [now left | now right].
    + intros [H|H]; [right; now left|].
      destruct (IH H) as [?|?]; [now left | right; now right].
Qed.

Lemma sorted_assign k v m : sorted m -> sorted (assign k v m).
Proof.
  induction m as [|[k0 v0] m IH]; cbn [assign].
  - cbn. intuition.
  - intros [Hlt Hs]. destruct (Z.compare_spec k k0) as [->|Hk|Hk].
    + cbn [sorted]. now split.
    + cbn [sorted]. split; [|now split].
      intros k' [<-|Hin]; [exact Hk|]. specialize (Hlt k' Hin). lia.
    + cbn [sorted]. split; [|now apply IH].
      intros k' Hin. apply keys_assign in Hin as [->|Hin]; [lia | now apply Hlt].
Qed.

Lemma rbegin_In m e : rbegin m = Some e -> In e m.
Proof.
  induction m as [|e0 m IH]; [discriminate|].
  destruct m as [|e1 m]; cbn [rbegin].
  - intros [= ->]. now left.
  - intros H. right. now apply IH.
Qed.

Lemma rbegin_nonempty m : empty m = false -> exists e, rbegin m = Some e.
Proof.
  induction m as [|e0 m IH]; [discriminate|]. intros _.
  destruct m as [|e1 m].
  - now exists e0.
  - destruct IH as [e He]; [reflexivity|]. exists e. exact He.
Qed.

(** On an ordered map, [rbegin] is the entry with the greatest key. *)
Lemma rbegin_max m k v :
  sorted m -> rbegin m = Some (k, v) ->
  forall k', In k' (keys m) -> k' <= k.
Proof.
  induction m as [|[k0 v0] m IH]; [discriminate|].
  intros [Hlt Hs] Hr k' Hin. destruct m as [|e1 m].
  - cbn in Hr, Hin. injection Hr as <- <-. destruct Hin as [<-|[]]. lia.
  - change (rbegin (e1 :: m) = Some (k, v)) in Hr.
    destruct Hin as [<-|Hin].
    + assert (Hk : In k (keys (e1 :: m))).
      { apply rbegin_In in Hr. now apply (in_map fst) in Hr. }
      specialize (Hlt k Hk). cbn [fst]. lia.
    + now apply IH.
Qed.

Lemma find_assign_same k v m : find k (assign k v m) = Some v.
Proof.
  induction m as [|[k0 v0] m IH]; cbn [assign find].
  - now rewrite Z.eqb_refl.
  - destruct (Z.compare_spec k k0) as [->|Hk|Hk]; cbn [find].
    + now rewrite Z.eqb_refl.
    + now rewrite Z.eqb_refl.
    + destruct (Z.eqb_spec k0 k); [lia | exact IH].
Qed.

Lemma assign_overwrite k v1 v2 m :
  assign k v2 (assign k v1 m) = assign k v2 m.
Proof.
  induction m as [|[k0 v0] m IH]; cbn [assign].
  - now rewrite Z.compare_refl.
  - destruct (k ?= k0) eqn:Hc; cbn [assign].
    + now rewrite Z.compare_refl.
    + now rewrite Z.compare_refl.
    + now rewrite Hc, IH.
Qed.

(** C8: storing the same (version, message) pair twice leaves the buffer
    as storing it once does, and storing under a key already present
    overwrites: the later value replaces the earlier one and is the one
    found, with no second entry for the key. *)
Theorem assign_idempotent_last_write_wins
        (m : Buffer.t) (k : Z) (v v' : AdsList.t) :
  assign k v (assign k v m) = assign k v m
  /\ assign k v' (assign k v m) = assign k v' m
  /\ find k (assign k v' (assign k v m)) = Some v'
  /\ assign (AdsList.version v) v (assign (AdsList.version v) v m)
     = assign (AdsList.version v) v m.
Proof.
  repeat split.
  - apply assign_overwrite.
  - apply assign_overwrite.
  - apply find_assign_same.
  - apply assign_overwrite.
Qed.
End BufferFacts.

(** ** The collector *)

Section CollectorFacts.
Import Collector.

Lemma buffer_inv_step consumed now buffer arrival adsList :
  buffer_inv consumed now buffer ->
  buffer_inv (consumed ++ [(arrival, adsList)])%list (Z.max now arrival)
             (Buffer.assign (AdsList.version adsList) adsList buffer).
Proof.
  intros (Hs & Hb & Hc). split; [|split].
  - now apply sorted_assign.
  - intros k v Hin. apply In_assign in Hin as [[-> ->]|Hin].
    + split; [reflexivity|]. exists arrival. split; [|lia].
      apply in_or_app. right. now left.
    + destruct (Hb k v Hin) as (Hk & t & Ht & Hle). split; [exact Hk|].
      exists t. split; [apply in_or_app; now left | lia].
  - intros t a Hin. apply in_app_or in Hin as [Hin|[[= <- <-]|[]]].
    + destruct (Hc t a Hin) as [Hk Hle]. split; [|lia].
      apply keys_assign. now right.
    + split; [|lia]. apply keys_assign. now left.
Qed.

Lemma buffer_inv_later consumed now now' buffer :
  now <= now' -> buffer_inv consumed now buffer ->
  buffer_inv consumed now' buffer.
Proof.
  intros Hle (Hs & Hb & Hc). split; [exact Hs|split].
  - intros k v Hin. destruct (Hb k v Hin) as (Hk & t & Ht & Hle').
    split; [exact Hk|]. exists t. split; [exact Ht | lia].
  - intros t a Hin. destruct (Hc t a Hin) as [Hk Hle']. split; [exact Hk | lia].
Qed.

Lemma collect_loop_inv work timeoutMs startTime closed_at inbound :
  forall consumed now buffer current,
    buffer_inv consumed now buffer ->
    let st := collect_loop work timeoutMs startTime closed_at inbound now
                           buffer current in
    exists consumed',
      (consumed ++ inbound = consumed' ++ unread st)%list
      /\ buffer_inv consumed' (stopped_at st) (adsListBuffer st).
Proof.
  revert work.
  induction inbound as [|[arrival adsList] rest IH];
    intros work consumed now buffer current Hinv; cbn [collect_loop].
  - destruct (timeoutMs <=? elapsed_ms startTime now).
    + exists consumed. split; [reflexivity | exact Hinv].
    + exists consumed. split; [reflexivity|].
      cbn [stopped_at adsListBuffer].
      apply (buffer_inv_later consumed now); [lia | exact Hinv].
  - destruct (timeoutMs <=? elapsed_ms startTime now).
    + exists consumed. split; [reflexivity | exact Hinv].
    + assert (Hle : Z.max now arrival
                    <= Z.max now arrival + Z.of_N (work 0%nat)) by lia.
      destruct (IH (later work) _ _ _ adsList
                  (buffer_inv_later _ _ _ _ Hle
                     (buffer_inv_step _ _ _ arrival adsList Hinv)))
        as (consumed' & Heq & Hinv').
      exists consumed'. split; [|exact Hinv'].
      rewrite <- Heq, <- app_assoc. reflexivity.
Qed.

Lemma collect_inv work timeoutMs startTime closed_at inbound :
  let st := collect work timeoutMs startTime closed_at inbound in
  exists consumed,
    (inbound = consumed ++ unread st)%list
    /\ buffer_inv consumed (stopped_at st) (adsListBuffer st).
Proof.
  unfold collect.
  apply (collect_loop_inv work timeoutMs startTime closed_at inbound [] startTime
                          [] AdsList.default).
  split; [exact I|]. split; [intros ? ? []|intros ? ? []].
Qed.
Lemma receive_rbegin work timeoutMs startTime closed_at inbound k v :
  Buffer.rbegin (adsListBuffer (collect work timeoutMs startTime closed_at inbound))
  = Some (k, v) ->
  receiveAdsListWithTimeout work timeoutMs startTime closed_at inbound = v.
Proof.
  unfold receiveAdsListWithTimeout. intros Hr. rewrite Hr.
  destruct (adsListBuffer (collect work timeoutMs startTime closed_at inbound));
    [discriminate | reflexivity].
Qed.

End CollectorFacts.

Section CollectorReads.
Import Collector.

Lemma elapsed_ms_mono startTime t t' :
  t <= t' -> elapsed_ms startTime t <= elapsed_ms startTime t'.
Proof. intros H. unfold elapsed_ms. apply Z.quot_le_mono; lia. Qed.

Lemma elapsed_ms_start startTime : elapsed_ms startTime startTime = 0.
Proof. unfold elapsed_ms. now rewrite Z.sub_diag. Qed.

Lemma last_nonempty_default {A} (x : A) (l : list A) (d d' : A) :
  last (x :: l) d = last (x :: l) d'.
Proof.
  revert x. induction l as [|y l IH]; intros x; [reflexivity|].
  change (last (y :: l) d = last (y :: l) d'). apply IH.
Qed.

(** Before the deadline, in the clock's own unit: with a positive timeout
    the truncated count of milliseconds is below the timeout exactly when
    the time is before the deadline. *)
Lemma elapsed_ms_deadline timeoutMs startTime t :
  0 < timeoutMs ->
  (elapsed_ms startTime t < timeoutMs <-> t < deadline startTime timeoutMs).
Proof.
  intros Hpos. unfold elapsed_ms, deadline.
  destruct (Z.lt_ge_cases (t - startTime) 0) as [Hneg|Hnn].
  - pose proof (Z.quot_le_mono (t - startTime) 0 1000000 ltac:(lia) ltac:(lia))
      as Hq.
    rewrite Z.quot_0_l in Hq by lia. split; intros _; lia.
  - rewrite Z.quot_div_nonneg by lia.
    pose proof (Z.div_mod (t - startTime) 1000000 ltac:(lia)) as Hdm.
    pose proof (Z.mod_pos_bound (t - startTime) 1000000 ltac:(lia)) as Hm.
    split; intros H; nia.
Qed.

Lemma clock_after_ge msgs : forall work now, now <= clock_after work msgs now.
Proof.
  induction msgs as [|[t a] msgs IH]; intros work now; cbn [clock_after].
  - lia.
  - specialize (IH (later work) (Z.max now t + Z.of_N (work 0%nat))). lia.
Qed.

Lemma read_messages_nil work timeoutMs startTime now :
  read_messages work timeoutMs startTime [] now = [].
Proof.
  cbn. destruct (timeoutMs <=? elapsed_ms startTime now); reflexivity.
Qed.

(** The loop reads [read_messages], leaves the rest unread and buffers what
    it read, in order. *)
Lemma collect_loop_read work timeoutMs startTime closed_at inbound :
  forall now buffer current,
    let st := collect_loop work timeoutMs startTime closed_at inbound now
                           buffer current in
    let read := read_messages work timeoutMs startTime inbound now in
    (inbound = read ++ unread st)%list
    /\ adsListBuffer st = fold_left store read buffer
    /\ currentAdsList st = last (map snd read) current
    /\ now <= stopped_at st.
Proof.
  revert work.
  induction inbound as [|[arrival adsList] rest IH];
    intros work now buffer current; cbn [collect_loop read_messages].
  - destruct (timeoutMs <=? elapsed_ms startTime now); cbn; repeat split; lia.
  - destruct (timeoutMs <=? elapsed_ms startTime now).
    + cbn. repeat split; lia.
    + destruct (IH (later work) (Z.max now arrival + Z.of_N (work 0%nat))
                   (Buffer.assign (AdsList.version adsList) adsList buffer)
                   adsList) as (Heq & Hbuf & Hcur & Hle).
      cbn zeta. split; [|split; [|split]].
      * cbn [app]. now rewrite <- Heq.
      * exact Hbuf.
      * rewrite Hcur. cbn [map snd].
        destruct (map snd (read_messages (later work) timeoutMs startTime rest
                             (Z.max now arrival + Z.of_N (work 0%nat))))
          as [|x l]; [reflexivity|].
        change (last (adsList :: x :: l) current) with (last (x :: l) current).
        apply last_nonempty_default.
      * lia.
Qed.


Lemma read_messages_nonempty work timeoutMs startTime inbound now :
  read_messages work timeoutMs startTime inbound now <> [] ->
  elapsed_ms startTime now < timeoutMs.
Proof.
  destruct inbound as [|[arrival a] rest]; cbn [read_messages];
    destruct (Z.leb_spec timeoutMs (elapsed_ms startTime now)); congruence.
Qed.

Lemma read_messages_in_time work timeoutMs startTime inbound :
  forall now t a,
    In (t, a) (removelast (read_messages work timeoutMs startTime inbound now)) ->
    elapsed_ms startTime t < timeoutMs.
Proof.
  revert work.
  induction inbound as [|[arrival adsList] rest IH]; intros work now t a;
    cbn [read_messages].
  - destruct (timeoutMs <=? elapsed_ms startTime now); intros [].
  - destruct (timeoutMs <=? elapsed_ms startTime now); [intros []|].
    destruct (read_messages (later work) timeoutMs startTime rest
                            (Z.max now arrival + Z.of_N (work 0%nat)))
      as [|m more] eqn:Hread; [intros []|].
    change (removelast ((arrival, adsList) :: m :: more))
      with ((arrival, adsList) :: removelast (m :: more)).
    intros [[= <- <-]|Hin].
    + assert (Hne : read_messages (later work) timeoutMs startTime rest
                      (Z.max now arrival + Z.of_N (work 0%nat)) <> [])
        by (rewrite Hread; discriminate).
      apply read_messages_nonempty in Hne.
      pose proof (elapsed_ms_mono startTime arrival
                    (Z.max now arrival + Z.of_N (work 0%nat))). lia.
    + apply (IH (later work) (Z.max now arrival + Z.of_N (work 0%nat)) t a).
      now rewrite Hread.
Qed.

(** If the clock at the head of the loop is still before the deadline once
    every message but the last has been handled, every message is read. *)
Lemma read_messages_all timeoutMs startTime inbound :
  0 < timeoutMs ->
  forall work now,
    clock_after work (removelast inbound) now < deadline startTime timeoutMs ->
    read_messages work timeoutMs startTime inbound now = inbound.
Proof.
  intros Hpos.
  induction inbound as [|[arrival adsList] rest IH]; intros work now Hclock.
  - apply read_messages_nil.
  - assert (Hnow : elapsed_ms startTime now < timeoutMs).
    { apply elapsed_ms_deadline; [assumption|].
      pose proof (clock_after_ge (removelast ((arrival, adsList) :: rest))
                                 work now). lia. }
    cbn [read_messages].
    destruct (Z.leb_spec timeoutMs (elapsed_ms startTime now)); [lia|].
    f_equal. destruct rest as [|m rest]; [apply read_messages_nil|].
    apply IH.
    change (removelast ((arrival, adsList) :: m :: rest))
      with ((arrival, adsList) :: removelast (m :: rest)) in Hclock.
    exact Hclock.
Qed.

Lemma keys_fold_store read : forall buffer k,
  In k (Buffer.keys (fold_left store read buffer)) <->
  In k (Buffer.keys buffer) \/ In k (map (fun m => AdsList.version (snd m)) read).
Proof.
  induction read as [|m read IH]; intros buffer k; cbn [fold_left map In].
  - intuition.
  - rewrite IH. unfold store. rewrite keys_assign. intuition congruence.
Qed.

Lemma find_assign k k' v m :
  Buffer.find k (Buffer.assign k' v m)
  = if k' =? k then Some v else Buffer.find k m.
Proof.
  induction m as [|[k0 v0] m IH]; cbn [Buffer.assign Buffer.find].
  - reflexivity.
  - destruct (Z.compare_spec k' k0) as [->|Hlt|Hgt]; cbn [Buffer.find].
    + destruct (k0 =? k); reflexivity.
    + reflexivity.
    + rewrite IH. destruct (Z.eqb_spec k0 k), (Z.eqb_spec k' k); try reflexivity.
      lia.
Qed.

Lemma find_fold_store read : forall buffer k,
  Buffer.find k (fold_left store read buffer)
  = match last_with_version k read with
    | Some a => Some a
    | None => Buffer.find k buffer
    end.
Proof.
  induction read as [|[t a] read IH]; intros buffer k;
    cbn [fold_left last_with_version].
  - reflexivity.
  - rewrite IH. destruct (last_with_version k read); [reflexivity|].
    unfold store. cbn [snd]. rewrite find_assign.
    destruct (AdsList.version a =? k); reflexivity.
Qed.

Lemma length_assign k v m :
  (List.length (Buffer.assign k v m) <= S (List.length m))%nat.
Proof.
  induction m as [|[k0 v0] m IH]; cbn [Buffer.assign]; [cbn; lia|].
  destruct (k ?= k0); cbn [List.length] in *; lia.
Qed.

Lemma length_fold_store read : forall buffer,
  (List.length (fold_left store read buffer)
   <= List.length buffer + List.length read)%nat.
Proof.
  induction read as [|m read IH]; intros buffer; cbn [fold_left List.length].
  - lia.
  - specialize (IH (store buffer m)).
    pose proof (length_assign (AdsList.version (snd m)) (snd m) buffer).
    unfold store in *. lia.
Qed.

Lemma sorted_NoDup m : Buffer.sorted m -> NoDup (Buffer.keys m).
Proof.
  induction m as [|[k v] m IH]; cbn [Buffer.sorted Buffer.keys map fst].
  - constructor.
  - intros [Hlt Hs]. constructor; [|now apply IH].
    intros Hin. specialize (Hlt k Hin). lia.
Qed.

(** The version of the message returned bounds every key of the buffer. *)
Lemma receive_bounds_keys work timeoutMs startTime closed_at inbound k :
  In k (Buffer.keys (adsListBuffer (collect work timeoutMs startTime closed_at inbound))) ->
  k <= AdsList.version
         (receiveAdsListWithTimeout work timeoutMs startTime closed_at inbound).
Proof.
  intros Hin.
  destruct (collect_inv work timeoutMs startTime closed_at inbound)
    as (consumed & _ & Hs & Hb & _).
  destruct (rbegin_nonempty
              (adsListBuffer (collect work timeoutMs startTime closed_at inbound)))
    as [[k0 v0] Hr].
  { destruct (adsListBuffer _); [destruct Hin | reflexivity]. }
  rewrite (receive_rbegin _ _ _ _ _ _ _ Hr).
  destruct (Hb k0 v0 (rbegin_In _ _ Hr)) as [<- _].
  now apply (rbegin_max _ _ _ Hs Hr).
Qed.
End CollectorReads.

Section CollectorTheorems.
Import Collector.





End CollectorTheorems.

(** ** The sender *)

Section SenderFacts.
(** The three runs of [sendContextMessages], by the results of its
    writes. *)
Lemma sendContextMessages_trace query asin_id understanding write_ok :
  trace (sendContextMessages query asin_id understanding) write_ok 0
  = let context1 := Context.Build query asin_id "" in
    let context2 := Context.Build query asin_id understanding in
    if write_ok 0%nat then
      if write_ok 1%nat then
        [EvWrite context1 true; EvSleep 50; EvWrite context2 true; EvWritesDone]
      else [EvWrite context1 true; EvSleep 50; EvWrite context2 false]
    else [EvWrite context1 false].
Proof.
  unfold trace, sendContextMessages, bind, Write, sleep_for, WritesDone, ret.
  cbn. destruct (write_ok 0%nat); cbn; [|reflexivity].
  destruct (write_ok 1%nat); reflexivity.
Qed.
End SenderFacts.

(** ** The server handler *)

Section ServerFacts.
Context {R : CxxRuntime}.

Lemma writes_app {Out} (t1 t2 : list (Event Out)) :
  writes (t1 ++ t2) = (writes t1 ++ writes t2)%list.
Proof.
  induction t1 as [|e t1 IH]; [reflexivity|].
  destruct e; cbn; now rewrite ?IH.
Qed.

Lemma generate_calls_app {Out} (t1 t2 : list (Event Out)) :
  generate_calls (t1 ++ t2) = (generate_calls t1 ++ generate_calls t2)%list.
Proof.
  induction t1 as [|e t1 IH]; [reflexivity|].
  destruct e; cbn; now rewrite ?IH.
Qed.

(** A prefix of a trace has written a prefix of what the trace writes. *)
Lemma writes_firstn {Out} (tr : list (Event Out)) (cutoff : nat) :
  exists n, writes (firstn cutoff tr) = firstn n (writes tr).
Proof.
  revert cutoff. induction tr as [|e tr IH]; intros [|cutoff].
  - now exists 0%nat.
  - now exists 0%nat.
  - now exists 0%nat.
  - destruct (IH cutoff) as [n Hn]. cbn [firstn].
    destruct e; cbn [writes]; try (exists n; exact Hn).
    exists (S n). cbn [firstn]. now rewrite Hn.
Qed.

(** The handler does not write after the [detach], so whatever the
    schedule the writes that follow are those of the detached thread, and
    so are the calls to the generator. *)
Lemma merge_sleep sched ms (task : list (Event AdsList.t)) :
  writes (merge sched [EvSleep ms] task) = writes task
  /\ generate_calls (merge sched [EvSleep ms] task) = generate_calls task.
Proof.
  revert task. induction sched as [|pick sched IH]; intros task.
  - split; reflexivity.
  - cbn [merge]. destruct task as [|f task]; [split; reflexivity|].
    destruct pick.
    + destruct sched; split; reflexivity.
    + destruct (IH task) as [Hw Hg].
      destruct f; cbn [writes generate_calls]; rewrite ?Hw, ?Hg; split; reflexivity.
Qed.

(** The events of a session, by the number of contexts received. *)
Lemma session_nil write_ok sched :
  session [] write_ok sched = [EvSleep 60].
Proof. reflexivity. Qed.

Lemma session_one c1 write_ok sched :
  session [c1] write_ok sched
  = [EvGenerate c1 1; EvWrite (generateAds c1 1) (write_ok 0%nat); EvSleep 60].
Proof. reflexivity. Qed.

Lemma session_two c1 c2 rest write_ok sched :
  session (c1 :: c2 :: rest) write_ok sched
  = ([EvGenerate c1 1; EvWrite (generateAds c1 1) (write_ok 0%nat);
      EvGenerate c2 2; EvWrite (generateAds c2 2) (write_ok 1%nat);
      EvDetach c2]
     ++ merge sched [EvSleep 60]
          [EvSleep 50; EvGenerate c2 3;
           EvWrite (generateAds c2 3) (write_ok 2%nat)])%list.
Proof. reflexivity. Qed.

Lemma GetAds_returns_OK incoming write_ok :
  value (GetAds incoming) write_ok 0 = OK.
Proof.
  unfold value, GetAds, bind.
  destruct (read_loop incoming 0 write_ok 0%nat) as [[count n] t].
  reflexivity.
Qed.

Lemma session_writes incoming write_ok sched :
  writes (session incoming write_ok sched)
  = match incoming with
    | [] => []
    | [c1] => [generateAds c1 1]
    | c1 :: c2 :: _ => [generateAds c1 1; generateAds c2 2; generateAds c2 3]
    end.
Proof.
  destruct incoming as [|c1 [|c2 rest]].
  - reflexivity.
  - reflexivity.
  - rewrite session_two, writes_app.
    destruct (merge_sleep sched 60
                [EvSleep 50; EvGenerate c2 3;
                 EvWrite (generateAds c2 3) (write_ok 2%nat)]) as [-> _].
    reflexivity.
Qed.

Lemma session_generate_calls incoming write_ok sched :
  generate_calls (session incoming write_ok sched)
  = match incoming with
    | [] => []
    | [c1] => [(c1, 1)]
    | c1 :: c2 :: _ => [(c1, 1); (c2, 2); (c2, 3)]
    end.
Proof.
  destruct incoming as [|c1 [|c2 rest]].
  - reflexivity.
  - reflexivity.
  - rewrite session_two, generate_calls_app.
    destruct (merge_sleep sched 60
                [EvSleep 50; EvGenerate c2 3;
                 EvWrite (generateAds c2 3) (write_ok 2%nat)]) as [_ ->].
    reflexivity.
Qed.

Lemma session_sent_versions incoming write_ok sched :
  sent_versions (session incoming write_ok sched)
  = firstn (match incoming with [] => 0 | [_] => 1 | _ => 3 end)%nat [1; 2; 3].
Proof.
  unfold sent_versions. rewrite session_writes.
  destruct incoming as [|c1 [|c2 rest]]; cbn [map firstn];
    rewrite ?generateAds_version; reflexivity.
Qed.
End ServerFacts.

Section ProtocolTheorems.
Context {R : CxxRuntime}.

(** C9: at every point of a session, under every schedule of the handler
    and the detached thread, the versions written so far are [], [1],
    [1; 2] or [1; 2; 3]: version 1 before version 2, version 3 only after
    version 2, and no other version.  A complete session writes no
    version, version 1 alone, or all three, as zero, one or at least two
    contexts were received. *)
Theorem server_sends_versions_in_order
        (incoming : list Context.t) (write_ok : nat -> bool)
        (sched : list bool) (cutoff : nat) :
  (exists n,
      sent_versions (firstn cutoff (session incoming write_ok sched))
      = firstn n [1; 2; 3])
  /\ sent_versions (session incoming write_ok sched)
     = firstn (match incoming with [] => 0 | [_] => 1 | _ => 3 end)%nat
              [1; 2; 3].
Proof.
  split; [|apply session_sent_versions].
  destruct (writes_firstn (session incoming write_ok sched) cutoff) as [n Hn].
  unfold sent_versions. rewrite Hn, <- firstn_map.
  change (map AdsList.version (writes (session incoming write_ok sched)))
    with (sent_versions (session incoming write_ok sched)).
  rewrite session_sent_versions, firstn_firstn.
  eexists. reflexivity.
Qed.

(** C2 (amended): the handler generates version 1 from the first context
    it receives, passed to the generator as received, understanding
    included; this is its only version-1 call.  The first context the
    client sends has an empty understanding whatever the caller gave, so
    for a first context sent by this client version 1 is generated with an
    empty understanding. *)
Theorem first_generation_uses_received_context
        (c1 : Context.t) (rest : list Context.t) (write_ok : nat -> bool)
        (sched : list bool)
        (query asin_id understanding : string) (client_write_ok : nat -> bool) :
  hd_error (generate_calls (session (c1 :: rest) write_ok sched))
  = Some (c1, 1)
  /\ hd_error (writes (session (c1 :: rest) write_ok sched))
     = Some (generateAds c1 1)
  /\ (forall c, In (c, 1) (generate_calls (session (c1 :: rest) write_ok sched))
                -> c = c1)
  /\ hd_error (writes (trace (sendContextMessages query asin_id understanding)
                             client_write_ok 0))
     = Some (Context.Build query asin_id "")
  /\ hd_error (generate_calls
                 (session (writes (trace (sendContextMessages
                                            query asin_id understanding)
                                         (fun _ => true) 0))
                          write_ok sched))
     = Some (Context.Build query asin_id "", 1).
Proof.
  rewrite session_generate_calls, session_writes, !sendContextMessages_trace.
  split; [|split; [|split; [|split]]].
  - destruct rest; reflexivity.
  - destruct rest; reflexivity.
  - intros c Hin. destruct rest as [|c2 rest]; cbn in Hin.
    + destruct Hin as [[= <-]|[]]. reflexivity.
    + destruct Hin as [[= <-]|[[= _ Hv]|[[= _ Hv]|[]]]];
        try reflexivity; discriminate Hv.
  - cbn zeta. destruct (client_write_ok 0%nat); [|reflexivity].
    destruct (client_write_ok 1%nat); reflexivity.
  - rewrite session_generate_calls. reflexivity.
Qed.

(** C4 (amended): in the sender a failed write ends the sending: nothing
    is written after it and [WritesDone] is not called; if the first write
    fails only the first context was handed to the stream.  In the server
    the result of a write is not looked at: the messages handed to the
    stream during a session are the same whatever the writes return. *)
Theorem write_failure_handling
        (query asin_id understanding : string) (client_write_ok : nat -> bool)
        (incoming : list Context.t) (write_ok write_ok' : nat -> bool)
        (sched : list bool) :
  let tr := trace (sendContextMessages query asin_id understanding)
                  client_write_ok 0 in
  (has_failed_write tr = true ->
     writes_after_failure tr = [] /\ writes_done tr = false)
  /\ (client_write_ok 0%nat = false ->
        writes tr = [Context.Build query asin_id ""]
        /\ writes_done tr = false)
  /\ (has_failed_write tr = false -> writes_done tr = true)
  /\ writes (session incoming write_ok sched)
     = writes (session incoming write_ok' sched).
Proof.
  intros tr. unfold tr. rewrite sendContextMessages_trace. cbn zeta.
  split; [|split; [|split]].
  - destruct (client_write_ok 0%nat); [|split; reflexivity].
    destruct (client_write_ok 1%nat); [discriminate | split; reflexivity].
  - intros ->. split; reflexivity.
  - destruct (client_write_ok 0%nat); [|discriminate].
    destruct (client_write_ok 1%nat); [reflexivity | discriminate].
  - now rewrite !session_writes.
Qed.
End ProtocolTheorems.

(** ** Where the handler departs from the claims, on a concrete session *)

Section Counterexamples.

(** C2 as stated fails: a first context that carries an understanding
    reaches the generator with that understanding. *)
Lemma first_generation_keeps_understanding :
  In (wanted, 1)
     (generate_calls (@session reference_runtime [wanted] (fun _ => true) []))
  /\ Context.understanding wanted = "espresso machine"
  /\ generate_calls (@session reference_runtime [wanted] (fun _ => true) [])
     = [(wanted, 1)]
  /\ @generateAds reference_runtime wanted 1
     <> @generateAds reference_runtime
          (Context.Build "coffee maker" "B000123456" "") 1.
Proof.
  split; [now left|]. split; [reflexivity|]. split; [reflexivity|].
  vm_compute. discriminate.
Qed.

(** C4 as stated fails on the server: the write of version 2 fails, and
    version 3 is generated and written all the same. *)
Lemma server_writes_after_failed_write :
  let second_fails := fun k : nat => negb (Nat.eqb k 1) in
  let tr := @session reference_runtime [wanted; wanted] second_fails
                     [true; false] in
  has_failed_write tr = true
  /\ writes_after_failure tr = [@generateAds reference_runtime wanted 3].
Proof.
  vm_compute. split; reflexivity.
Qed.
End Counterexamples.

(** * Further properties of the code *)

(** ** Decimal output *)

Lemma length_append (s1 s2 : string) :
  String.length (s1 ++ s2) = (String.length s1 + String.length s2)%nat.
Proof. induction s1 as [|c s1 IH]; cbn; [reflexivity | now rewrite IH]. Qed.

Lemma length_fill n c : String.length (fill n c) = n.
Proof. induction n as [|n IH]; cbn; [reflexivity | now rewrite IH]. Qed.

Lemma all_digits_append s1 s2 :
  all_digits (s1 ++ s2) = all_digits s1 && all_digits s2.
Proof.
  induction s1 as [|c s1 IH]; cbn; [reflexivity|].
  now rewrite IH, andb_assoc.
Qed.

Lemma all_digits_fill n : all_digits (fill n "0") = true.
Proof. induction n as [|n IH]; [reflexivity | exact IH]. Qed.

Lemma string_of_uint_length d :
  String.length (NilEmpty.string_of_uint d) = Decimal.nb_digits d.
Proof. induction d; cbn; now rewrite ?IHd. Qed.

Lemma string_of_uint_digits d : all_digits (NilEmpty.string_of_uint d) = true.
Proof. induction d; cbn; try reflexivity; exact IHd. Qed.

(** Reading digits after [acc] multiplies [acc] by ten for each digit, at
    least. *)
Lemma of_uint_acc_lower d : forall acc,
  Z.pos acc * 10 ^ Z.of_nat (Decimal.nb_digits d)
  <= Z.pos (Pos.of_uint_acc d acc).
Proof.
  induction d; intros acc; cbn [Pos.of_uint_acc Decimal.nb_digits];
    try (rewrite Nat2Z.inj_succ, Z.pow_succ_r by lia;
         etransitivity; [|apply IHd];
         pose proof (Z.pow_pos_nonneg 10 (Z.of_nat (Decimal.nb_digits d)));
         nia).
  cbn. lia.
Qed.

Lemma nzhead_head d :
  match Decimal.nzhead d with Decimal.D0 _ => False | _ => True end.
Proof. induction d; cbn; auto. Qed.

(** A positive number written with [n] digits is at least [10 ^ (n - 1)]:
    its decimal writing has no leading zero. *)
Lemma to_uint_lower p :
  10 ^ (Z.of_nat (Decimal.nb_digits (Pos.to_uint p)) - 1) <= Z.pos p.
Proof.
  pose proof (DecimalPos.Unsigned.of_to p) as Hof.
  pose proof (DecimalPos.Unsigned.to_of (Pos.to_uint p)) as Hto.
  rewrite Hof in Hto. change (N.to_uint (N.pos p)) with (Pos.to_uint p) in Hto.
  pose proof (DecimalPos.Unsigned.to_uint_nonzero p) as Hnz.
  destruct (Pos.to_uint p) as [|d|d|d|d|d|d|d|d|d|d] eqn:Hd;
    try (cbn [Pos.of_uint] in Hof; injection Hof as Hof;
         pose proof (of_uint_acc_lower d) as Hl;
         cbn [Decimal.nb_digits]; rewrite Nat2Z.inj_succ;
         replace (Z.succ (Z.of_nat (Decimal.nb_digits d)) - 1)
           with (Z.of_nat (Decimal.nb_digits d)) by lia;
         rewrite <- Hof;
         match goal with |- _ <= Z.pos (Pos.of_uint_acc _ ?k) =>
           specialize (Hl k) end;
         pose proof (Z.pow_pos_nonneg 10 (Z.of_nat (Decimal.nb_digits d)));
         nia).
  - discriminate Hof.
  - exfalso. unfold Decimal.unorm in Hto. cbn [Decimal.nzhead] in Hto.
    pose proof (nzhead_head d) as Hh.
    destruct (Decimal.nzhead d); try discriminate Hto.
    + injection Hto as ->. now apply Hnz.
    + exact Hh.
Qed.

(** [std::to_string] of a number below [10 ^ k] gives at most [k]
    characters, all of them digits. *)
Lemma to_string_N_format (n : N) (k : nat) :
  (0 < k)%nat -> Z.of_N n < 10 ^ Z.of_nat k ->
  (String.length (to_string (Z.of_N n)) <= k)%nat
  /\ all_digits (to_string (Z.of_N n)) = true.
Proof.
  intros Hk Hn. unfold to_string. destruct n as [|p]; cbn [Z.of_N Z.to_int].
  - cbn. split; [lia | reflexivity].
  - cbn [NilZero.string_of_int NilZero.string_of_uint].
    pose proof (DecimalPos.Unsigned.to_uint_nonnil p) as Hnn.
    pose proof (to_uint_lower p) as Hl.
    assert (Hs : NilZero.string_of_uint (Pos.to_uint p)
                 = NilEmpty.string_of_uint (Pos.to_uint p)).
    { unfold NilZero.string_of_uint. destruct (Pos.to_uint p); congruence. }
    rewrite Hs, string_of_uint_length, string_of_uint_digits.
    split; [|reflexivity].
    cbn [Z.of_N] in Hn.
    assert (Hlt : 10 ^ (Z.of_nat (Decimal.nb_digits (Pos.to_uint p)) - 1)
                  < 10 ^ Z.of_nat k) by lia.
    destruct (Decimal.nb_digits (Pos.to_uint p)) as [|m]; [lia|].
    apply Z.pow_lt_mono_r_iff in Hlt; lia.
Qed.

(** A number below [10 ^ w], written with [setfill('0')] and [setw(w)],
    takes exactly [w] digits. *)
Lemma setfill_setw_format (w : nat) (n : N) :
  (0 < w)%nat -> Z.of_N n < 10 ^ Z.of_nat w ->
  String.length (setfill_setw "0" w (to_string (Z.of_N n))) = w
  /\ all_digits (setfill_setw "0" w (to_string (Z.of_N n))) = true.
Proof.
  intros Hw Hn. destruct (to_string_N_format n w Hw Hn) as [Hlen Hdig].
  unfold setfill_setw. rewrite length_append, length_fill, all_digits_append,
    all_digits_fill, Hdig.
  split; [lia | reflexivity].
Qed.

(** ** The generator: identifiers *)

Section AdGeneratorIdentifiers.
Context {R : CxxRuntime}.

Lemma generate_one_identifiers c v i g :
  Ad.asin_id (fst (generate_one c v i g)) = asin_of c i
  /\ Ad.ad_id (fst (generate_one c v i g)) = generateAdId (asin_of c i) i.
Proof.
  unfold generate_one.
  destruct (uniform_real_distribution (- lit_0_1) lit_0_1 g).
  split; reflexivity.
Qed.

Lemma generate_loop_nth c v n : forall i g j ad,
  nth_error (generate_loop c v n i g) j = Some ad ->
  Ad.asin_id ad = asin_of c (i + Z.of_nat j)
  /\ Ad.ad_id ad = generateAdId (asin_of c (i + Z.of_nat j)) (i + Z.of_nat j).
Proof.
  induction n as [|n IH]; intros i g j ad; cbn [generate_loop].
  - destruct j; discriminate.
  - pose proof (generate_one_identifiers c v i g) as H1.
    destruct (generate_one c v i g) as [ad0 g']. cbn [fst] in H1.
    destruct j as [|j]; cbn [nth_error].
    + intros [= <-]. now rewrite Z.add_0_r.
    + intros Hn. apply IH in Hn.
      now replace (i + Z.of_nat (S j)) with (i + 1 + Z.of_nat j) by lia.
Qed.

Lemma asin_of_format c i :
  exists d6, asin_of c i = String "B" d6
             /\ String.length d6 = 6%nat /\ all_digits d6 = true.
Proof.
  eexists. split; [reflexivity|].
  apply setfill_setw_format; [lia|].
  pose proof (N.mod_lt (hasher (Context.asin_id c ++ to_string i)) 1000000).
  change (10 ^ Z.of_nat 6) with (Z.of_N 1000000). lia.
Qed.

Lemma generateAdId_format asin i :
  exists d8, generateAdId asin i = String "A" (String "D" d8)
             /\ String.length d8 = 8%nat /\ all_digits d8 = true.
Proof.
  eexists. split; [reflexivity|].
  apply setfill_setw_format; [lia|].
  pose proof (N.mod_lt (hasher (asin ++ to_string i)) 100000000).
  change (10 ^ Z.of_nat 8) with (Z.of_N 100000000). lia.
Qed.

(** X1: every generated ad has an item identifier made of the letter B and
    exactly six decimal digits, and a result identifier made of the letters
    AD and exactly eight decimal digits. *)
Theorem generateAds_identifier_format (c : Context.t) (v : Z) :
  Forall (fun ad =>
            exists d6 d8,
              Ad.asin_id ad = String "B" d6
              /\ String.length d6 = 6%nat /\ all_digits d6 = true
              /\ Ad.ad_id ad = String "A" (String "D" d8)
              /\ String.length d8 = 8%nat /\ all_digits d8 = true)
         (AdsList.ads (generateAds c v)).
Proof.
  destruct (generateAds_ads c v) as [g ->].
  apply Forall_forall. intros ad Hin.
  apply In_nth_error in Hin as [j Hj].
  apply generate_loop_nth in Hj as [Ha Hd].
  destruct (asin_of_format c (0 + Z.of_nat j)) as (d6 & H6 & Hl6 & Hd6).
  destruct (generateAdId_format (asin_of c (0 + Z.of_nat j)) (0 + Z.of_nat j))
    as (d8 & H8 & Hl8 & Hd8).
  exists d6, d8. rewrite Ha, Hd. repeat split; assumption.
Qed.

(** X2: the ad at position [i] of a generated message is identified by the
    context's item identifier and [i] alone: its item identifier comes from
    the hash of the item identifier followed by [i], and its result
    identifier from the hash of that item identifier followed by [i]. *)
Theorem generateAds_nth_identifiers
        (c : Context.t) (v : Z) (i : nat) (ad : Ad.t) :
  nth_error (AdsList.ads (generateAds c v)) i = Some ad ->
  Ad.asin_id ad
  = "B" ++ setfill_setw "0" 6
      (to_string (Z.of_N (hasher (Context.asin_id c ++ to_string (Z.of_nat i))
                          mod 1000000)%N))
  /\ Ad.ad_id ad = generateAdId (Ad.asin_id ad) (Z.of_nat i).
Proof.
  destruct (generateAds_ads c v) as [g ->]. intros Hn.
  apply generate_loop_nth in Hn as [Ha Hd]. cbn [Z.add] in Ha, Hd.
  rewrite Hd, Ha. split; reflexivity.
Qed.

Lemma generate_loop_ids_prefix c1 c2 v1 v2 n m :
  Context.asin_id c1 = Context.asin_id c2 ->
  forall i g1 g2,
    map Ad.asin_id (generate_loop c1 v1 n i g1)
    = firstn n (map Ad.asin_id (generate_loop c2 v2 (n + m) i g2))
    /\ map Ad.ad_id (generate_loop c1 v1 n i g1)
       = firstn n (map Ad.ad_id (generate_loop c2 v2 (n + m) i g2)).
Proof.
  intros Ha. induction n as [|n IH]; intros i g1 g2.
  - split; reflexivity.
  - cbn [generate_loop Nat.add].
    destruct (generate_one_ids c1 c2 v1 v2 i g1 g2 Ha) as [H1 H2].
    destruct (generate_one c1 v1 i g1) as [ad1 g1'].
    destruct (generate_one c2 v2 i g2) as [ad2 g2'].
    cbn [fst] in H1, H2. cbn [map firstn].
    destruct (IH (i + 1) g1' g2') as [IH1 IH2].
    split; f_equal; assumption.
Qed.

(** X3: for one item identifier, the ads of any two generated messages
    carry the same identifiers position by position, whatever the
    versions, queries and understandings: the identifier lists of the
    shorter message are the beginning of those of the longer one. *)
Theorem generateAds_identifiers_agree
        (c1 c2 : Context.t) (v1 v2 : Z) :
  Context.asin_id c1 = Context.asin_id c2 ->
  let ads1 := AdsList.ads (generateAds c1 v1) in
  let ads2 := AdsList.ads (generateAds c2 v2) in
  (map Ad.asin_id ads1 = firstn (List.length ads1) (map Ad.asin_id ads2)
   /\ map Ad.ad_id ads1 = firstn (List.length ads1) (map Ad.ad_id ads2))
  \/ (map Ad.asin_id ads2 = firstn (List.length ads2) (map Ad.asin_id ads1)
      /\ map Ad.ad_id ads2 = firstn (List.length ads2) (map Ad.ad_id ads1)).
Proof.
  intros Ha ads1 ads2. unfold ads1, ads2.
  destruct (generateAds_ads c1 v1) as [g1 ->].
  destruct (generateAds_ads c2 v2) as [g2 ->].
  rewrite !generate_loop_length.
  set (n1 := Z.to_nat (fst (uniform_int_distribution 5 10
               (mt19937_seed (hasher ((Context.query c1 ++ Context.asin_id c1)
                                      ++ to_string v1)))))).
  set (n2 := Z.to_nat (fst (uniform_int_distribution 5 10
               (mt19937_seed (hasher ((Context.query c2 ++ Context.asin_id c2)
                                      ++ to_string v2)))))).
  destruct (Nat.le_ge_cases n1 n2) as [Hle|Hle].
  - left. replace n2 with (n1 + (n2 - n1))%nat by lia.
    now apply generate_loop_ids_prefix.
  - right. replace n1 with (n2 + (n1 - n2))%nat by lia.
    now apply generate_loop_ids_prefix.
Qed.
End AdGeneratorIdentifiers.

Lemma generateAds_nth_identifiers_witness :
  exists ad,
    nth_error (AdsList.ads (@generateAds reference_runtime wanted 1)) 2 = Some ad
    /\ Ad.ad_id ad = @generateAdId reference_runtime (Ad.asin_id ad) 2.
Proof.
  eexists. split; [vm_compute; reflexivity|].
  refine (proj2 (@generateAds_nth_identifiers reference_runtime wanted 1 2 _ _)).
  vm_compute. reflexivity.
Defined.

Lemma generateAds_identifiers_agree_witness :
  let ads1 := AdsList.ads (@generateAds reference_runtime wanted 1) in
  let ads2 := AdsList.ads (@generateAds reference_runtime
                             (Context.Build "tea pot" "B000123456" "") 3) in
  (map Ad.asin_id ads1 = firstn (List.length ads1) (map Ad.asin_id ads2)
   /\ map Ad.ad_id ads1 = firstn (List.length ads1) (map Ad.ad_id ads2))
  \/ (map Ad.asin_id ads2 = firstn (List.length ads2) (map Ad.asin_id ads1)
      /\ map Ad.ad_id ads2 = firstn (List.length ads2) (map Ad.ad_id ads1)).
Proof.
  exact (@generateAds_identifiers_agree reference_runtime wanted
           (Context.Build "tea pot" "B000123456" "") 1 3 eq_refl).
Defined.

(** ** The collector: what is read and what is kept *)


Section CollectorBehaviour.
Context {R : CxxRuntime}.
Import Collector.

Lemma find_In_sorted m k v :
  Buffer.sorted m -> In (k, v) m -> Buffer.find k m = Some v.
Proof.
  induction m as [|[k0 v0] m IH]; [intros _ []|].
  intros [Hlt Hs] [[= -> ->]|Hin]; cbn [Buffer.find].
  - now rewrite Z.eqb_refl.
  - destruct (Z.eqb_spec k0 k) as [->|_]; [|now apply IH].
    specialize (Hlt k (in_map fst _ _ Hin)). cbn [fst] in Hlt. lia.
Qed.

(** X4: the timeout drawn is between 30 and 120 ms, so the deadline has not
    passed when the loop is entered and the first [Read] is always made: if
    the server sends a message at all, however late, the collector waits
    for it, buffers it and does not return the empty default. *)
Theorem collector_waits_for_first_message
        (gen : mt19937) (work : nat -> N) (startTime closed_at t : Z)
        (a : AdsList.t) (rest : list (Z * AdsList.t)) :
  let timeoutMs := fst (generateRandomTimeout gen) in
  let inbound := (t, a) :: rest in
  let st := collect work timeoutMs startTime closed_at inbound in
  30 <= timeoutMs <= 120
  /\ Buffer.empty (adsListBuffer st) = false
  /\ In (AdsList.version a) (Buffer.keys (adsListBuffer st))
  /\ AdsList.version a
     <= AdsList.version
          (receiveAdsListWithTimeout work timeoutMs startTime closed_at inbound)
  /\ t <= stopped_at st.
Proof.
  intros timeoutMs inbound st.
  assert (Hrange : 30 <= timeoutMs <= 120).
  { apply uniform_int_distribution_range. lia. }
  assert (Hread : read_messages work timeoutMs startTime inbound startTime
                  = (t, a) :: read_messages (later work) timeoutMs startTime rest
                                (Z.max startTime t + Z.of_N (work 0%nat))).
  { cbn [inbound read_messages]. rewrite elapsed_ms_start.
    destruct (Z.leb_spec timeoutMs 0); [lia | reflexivity]. }
  destruct (collect_loop_read work timeoutMs startTime closed_at inbound startTime
                              [] AdsList.default) as (_ & Hbuf & _ & _).
  fold (collect work timeoutMs startTime closed_at inbound) in Hbuf. fold st in Hbuf.
  assert (Hkey : In (AdsList.version a) (Buffer.keys (adsListBuffer st))).
  { rewrite Hbuf, Hread. apply keys_fold_store. right. now left. }
  split; [exact Hrange|]. split; [|split; [exact Hkey|split]].
  - destruct (adsListBuffer st); [destruct Hkey | reflexivity].
  - now apply receive_bounds_keys.
  - unfold st, collect, inbound. cbn [collect_loop]. rewrite elapsed_ms_start.
    destruct (Z.leb_spec timeoutMs 0); [lia|].
    destruct (collect_loop_read (later work) timeoutMs startTime closed_at rest
                (Z.max startTime t + Z.of_N (work 0%nat))
                (Buffer.assign (AdsList.version a) a []) a) as (_ & _ & _ & Hle).
    lia.
Qed.

(** X5: the deadline is looked at before each [Read] only, so of the
    messages read all but the last arrived before the deadline had passed;
    at most one message that arrives too late is buffered, the one a
    blocked [Read] was waiting for. *)
Theorem collector_at_most_one_late_message
        (work : nat -> N) (timeoutMs startTime closed_at : Z)
        (inbound : list (Z * AdsList.t)) :
  let st := collect work timeoutMs startTime closed_at inbound in
  let read := read_messages work timeoutMs startTime inbound startTime in
  (inbound = read ++ unread st)%list
  /\ adsListBuffer st = fold_left store read []
  /\ (forall t a, In (t, a) (removelast read) ->
                  elapsed_ms startTime t < timeoutMs).
Proof.
  intros st read.
  destruct (collect_loop_read work timeoutMs startTime closed_at inbound startTime
                              [] AdsList.default) as (Heq & Hbuf & _ & _).
  split; [exact Heq|]. split; [exact Hbuf|].
  intros t a Hin. exact (read_messages_in_time _ _ _ _ _ t a Hin).
Qed.

(** X6: if the clock at the head of the loop is still before the deadline
    once every message but the last has been read and handled, the
    collector reads all the messages, leaves nothing unread, and returns
    one of them, which carries the greatest version sent. *)
Theorem collector_reads_all_in_time
        (work : nat -> N) (timeoutMs startTime closed_at : Z)
        (inbound : list (Z * AdsList.t)) :
  clock_after work (removelast inbound) startTime
  < deadline startTime timeoutMs ->
  let st := collect work timeoutMs startTime closed_at inbound in
  let r := receiveAdsListWithTimeout work timeoutMs startTime closed_at inbound in
  unread st = []
  /\ read_messages work timeoutMs startTime inbound startTime = inbound
  /\ (forall t a, In (t, a) inbound -> AdsList.version a <= AdsList.version r)
  /\ (inbound <> [] -> exists t, In (t, r) inbound).
Proof.
  intros Hclock st r.
  assert (Hpos : 0 < timeoutMs).
  { pose proof (clock_after_ge (removelast inbound) work startTime).
    unfold deadline in Hclock. lia. }
  destruct (collect_loop_read work timeoutMs startTime closed_at inbound startTime
                              [] AdsList.default) as (Heq & Hbuf & _ & _).
  fold (collect work timeoutMs startTime closed_at inbound) in Heq, Hbuf.
  fold st in Heq, Hbuf.
  pose proof (read_messages_all timeoutMs startTime inbound Hpos work startTime
                                Hclock) as Hall.
  rewrite Hall in Heq, Hbuf.
  assert (Hun : unread st = []).
  { rewrite <- (app_nil_r inbound) in Heq at 1. now apply app_inv_head in Heq. }
  assert (Hkeys : forall t a, In (t, a) inbound ->
                    In (AdsList.version a) (Buffer.keys (adsListBuffer st))).
  { intros t a Hin. rewrite Hbuf. apply keys_fold_store. right.
    now apply (in_map (fun m => AdsList.version (snd m)) _ (t, a)). }
  split; [exact Hun|]. split; [exact Hall|]. split.
  - intros t a Hin. apply receive_bounds_keys. now apply (Hkeys t a).
  - intros Hne.
    destruct (collect_inv work timeoutMs startTime closed_at inbound)
      as (consumed & Hc & _ & Hb & _).
    fold st in Hc, Hb. rewrite Hun, app_nil_r in Hc. subst consumed.
    destruct (rbegin_nonempty (adsListBuffer st)) as [[k0 v0] Hr].
    { destruct inbound as [|[t a] rest]; [congruence|].
      specialize (Hkeys t a (or_introl eq_refl)).
      destruct (adsListBuffer st); [destruct Hkeys | reflexivity]. }
    unfold r. rewrite (receive_rbegin _ _ _ _ _ _ _ Hr).
    destruct (Hb k0 v0 (rbegin_In _ _ Hr)) as (_ & t & Ht & _).
    now exists t.
Qed.

(** X7: the buffer keeps, for each version, the last message read with
    that version and nothing for a version never read; the message returned
    is the last one read among those with its version. *)
Theorem collector_keeps_last_per_version
        (work : nat -> N) (timeoutMs startTime closed_at : Z)
        (inbound : list (Z * AdsList.t)) :
  let st := collect work timeoutMs startTime closed_at inbound in
  let read := read_messages work timeoutMs startTime inbound startTime in
  let r := receiveAdsListWithTimeout work timeoutMs startTime closed_at inbound in
  (forall k, Buffer.find k (adsListBuffer st) = last_with_version k read)
  /\ (Buffer.empty (adsListBuffer st) = false ->
      last_with_version (AdsList.version r) read = Some r).
Proof.
  intros st read r.
  destruct (collect_loop_read work timeoutMs startTime closed_at inbound startTime
                              [] AdsList.default) as (_ & Hbuf & _ & _).
  fold (collect work timeoutMs startTime closed_at inbound) in Hbuf.
  fold st read in Hbuf.
  assert (Hfind : forall k, Buffer.find k (adsListBuffer st)
                            = last_with_version k read).
  { intros k. rewrite Hbuf, find_fold_store.
    destruct (last_with_version k read); reflexivity. }
  split; [exact Hfind|]. intros Hne.
  destruct (rbegin_nonempty _ Hne) as [[k0 v0] Hr].
  destruct (collect_inv work timeoutMs startTime closed_at inbound)
    as (consumed & _ & Hs & Hb & _).
  fold st in Hs, Hb.
  pose proof (rbegin_In _ _ Hr) as Hin.
  destruct (Hb k0 v0 Hin) as [Hk _].
  unfold r. rewrite (receive_rbegin _ _ _ _ _ _ _ Hr), <- Hk, <- Hfind.
  now apply find_In_sorted.
Qed.

(** X8: the buffer holds its entries in strictly increasing key order, one
    entry per version at most, each stored under the version it carries,
    and never more entries than messages read. *)
Theorem collector_buffer_invariant
        (work : nat -> N) (timeoutMs startTime closed_at : Z)
        (inbound : list (Z * AdsList.t)) :
  let st := collect work timeoutMs startTime closed_at inbound in
  Buffer.sorted (adsListBuffer st)
  /\ NoDup (Buffer.keys (adsListBuffer st))
  /\ (forall k v, In (k, v) (adsListBuffer st) -> k = AdsList.version v)
  /\ (List.length (adsListBuffer st)
      <= List.length (read_messages work timeoutMs startTime inbound startTime))%nat.
Proof.
  intros st.
  destruct (collect_inv work timeoutMs startTime closed_at inbound)
    as (consumed & _ & Hs & Hb & _).
  fold st in Hs, Hb.
  destruct (collect_loop_read work timeoutMs startTime closed_at inbound startTime
                              [] AdsList.default) as (_ & Hbuf & _ & _).
  fold (collect work timeoutMs startTime closed_at inbound) in Hbuf. fold st in Hbuf.
  split; [exact Hs|]. split; [now apply sorted_NoDup|]. split.
  - intros k v Hin. now destruct (Hb k v Hin).
  - rewrite Hbuf. apply (length_fold_store _ []).
Qed.
End CollectorBehaviour.

Lemma collector_reads_all_in_time_witness :
  let a1 := {| AdsList.version := 1; AdsList.ads := [] |} in
  let a2 := {| AdsList.version := 2; AdsList.ads := [] |} in
  let a3 := {| AdsList.version := 3; AdsList.ads := [] |} in
  let inbound := [(12000000, a1); (62000000, a2); (112000000, a3)] in
  clock_after quarter_ms (removelast inbound) 0 = 62250000
  /\ Collector.unread (Collector.collect quarter_ms 120 0 300000000 inbound) = []
  /\ Collector.receiveAdsListWithTimeout quarter_ms 120 0 300000000 inbound = a3.
Proof.
  intros a1 a2 a3 inbound.
  split; [reflexivity|]. split; [|reflexivity].
  refine (proj1 (collector_reads_all_in_time quarter_ms 120 0 300000000 inbound
                   _)).
  reflexivity.
Defined.

(** ** The sender and the handler: what reaches the peer *)

Section Exchange.
Context {R : CxxRuntime}.
Import Collector.

(** X9: whatever the writes return, the sender hands to the stream a
    beginning of the two contexts of the call (first the one with the empty
    understanding, then the one with the caller's), the peer receives a
    beginning of the same two, and [WritesDone] is called exactly when both
    writes succeeded, after both contexts were delivered. *)
Theorem sender_sends_prefix_of_two_contexts
        (query asin_id understanding : string) (write_ok : nat -> bool) :
  let tr := trace (sendContextMessages query asin_id understanding) write_ok 0 in
  let both := [Context.Build query asin_id "";
               Context.Build query asin_id understanding] in
  (exists n, writes tr = firstn n both)
  /\ (exists n, delivered tr = firstn n both)
  /\ writes_done tr = write_ok 0%nat && write_ok 1%nat
  /\ (writes_done tr = true -> delivered tr = both)
  /\ (writes_done tr = true -> last tr EvWritesDone = EvWritesDone).
Proof.
  intros tr both. unfold tr. rewrite sendContextMessages_trace. cbn zeta.
  destruct (write_ok 0%nat), (write_ok 1%nat); cbn;
    (split; [|split; [|split; [|split]]]);
    try reflexivity; try discriminate;
    try (now exists 2%nat); try (now exists 1%nat); try (now exists 0%nat).
Qed.

(** X10: the handler answers the first two contexts only: its read loop is
    left after the second context, with further contexts never read, and a
    session that is sent more contexts than two produces the events of the
    session that is sent the first two. *)
Theorem session_ignores_contexts_after_second
        (c1 c2 : Context.t) (rest : list Context.t) (write_ok : nat -> bool)
        (sched : list bool) :
  value (read_loop (c1 :: c2 :: rest) 0) write_ok 0 = 2
  /\ trace (read_loop (c1 :: c2 :: rest) 0) write_ok 0
     = trace (read_loop [c1; c2] 0) write_ok 0
  /\ session (c1 :: c2 :: rest) write_ok sched = session [c1; c2] write_ok sched.
Proof.
  split; [reflexivity|]. split; [reflexivity|].
  now rewrite !session_two.
Qed.

(** X11: the messages of a session, under every schedule and whatever the
    writes return: none when no context is received; version 1 generated
    from the first context when one is received; and, when two are,
    versions 2 and 3 both generated from the second context, so that the
    understanding of the first context reaches version 1 only. *)
Theorem session_messages_by_contexts
        (c1 c2 : Context.t) (rest : list Context.t) (write_ok : nat -> bool)
        (sched : list bool) :
  writes (session [] write_ok sched) = []
  /\ writes (session [c1] write_ok sched) = [generateAds c1 1]
  /\ writes (session (c1 :: c2 :: rest) write_ok sched)
     = [generateAds c1 1; generateAds c2 2; generateAds c2 3]
  /\ generate_calls (session (c1 :: c2 :: rest) write_ok sched)
     = [(c1, 1); (c2, 2); (c2, 3)].
Proof.
  rewrite !session_writes, session_generate_calls. repeat split.
Qed.

Lemma merge_sleep_delivered sched ms (task : list (Event AdsList.t)) :
  delivered (merge sched [EvSleep ms] task) = delivered task.
Proof.
  revert task. induction sched as [|pick sched IH]; intros task.
  - reflexivity.
  - cbn [merge]. destruct task as [|f task]; [reflexivity|].
    destruct pick.
    + destruct sched; reflexivity.
    + destruct f as [| m [|] | | |]; cbn [delivered]; now rewrite IH.
Qed.

Lemma delivered_app {Out} (t1 t2 : list (Event Out)) :
  delivered (t1 ++ t2) = (delivered t1 ++ delivered t2)%list.
Proof.
  induction t1 as [|e t1 IH]; [reflexivity|].
  destruct e as [| m [|] | | |]; cbn; now rewrite ?IH.
Qed.

(** What the client receives of a session whose writes all succeed. *)
Lemma session_delivered incoming sched :
  delivered (session incoming (fun _ => true) sched)
  = match incoming with
    | [] => []
    | [c1] => [generateAds c1 1]
    | c1 :: c2 :: _ => [generateAds c1 1; generateAds c2 2; generateAds c2 3]
    end.
Proof.
  destruct incoming as [|c1 [|c2 rest]]; [reflexivity | reflexivity|].
  rewrite session_two, delivered_app, merge_sleep_delivered. reflexivity.
Qed.

(** Three messages of versions 1, 2 and 3 in this order: if the first two
    are read and handled before the deadline has passed, the third is
    waited for and returned. *)
Lemma collect_three_versions work timeoutMs startTime closed_at
      t1 t2 t3 a1 a2 a3 :
  AdsList.version a1 = 1 -> AdsList.version a2 = 2 -> AdsList.version a3 = 3 ->
  Z.max (Z.max startTime t1 + Z.of_N (work 0%nat)) t2 + Z.of_N (work 1%nat)
  < deadline startTime timeoutMs ->
  receiveAdsListWithTimeout work timeoutMs startTime closed_at
                            [(t1, a1); (t2, a2); (t3, a3)] = a3.
Proof.
  intros H1 H2 H3 Hclock.
  assert (Hpos : 0 < timeoutMs) by (unfold deadline in Hclock; lia).
  assert (Hm1 : elapsed_ms startTime (Z.max startTime t1 + Z.of_N (work 0%nat))
                < timeoutMs).
  { apply elapsed_ms_deadline; [assumption | lia]. }
  apply (elapsed_ms_deadline timeoutMs startTime _ Hpos) in Hclock.
  unfold receiveAdsListWithTimeout, collect. cbn [collect_loop].
  rewrite elapsed_ms_start. unfold later.
  destruct (Z.leb_spec timeoutMs 0); [lia|].
  destruct (Z.leb_spec timeoutMs
              (elapsed_ms startTime
                 (Z.max startTime t1 + Z.of_N (work 0%nat)))); [lia|].
  destruct (Z.leb_spec timeoutMs
              (elapsed_ms startTime
                 (Z.max (Z.max startTime t1 + Z.of_N (work 0%nat)) t2
                  + Z.of_N (work 1%nat)))); [lia|].
  rewrite H1, H2, H3.
  destruct (timeoutMs <=? _); reflexivity.
Qed.

(** X12: a whole call whose writes all succeed.  The server receives the
    two contexts the sender wrote and answers with versions 1, 2 and 3; if
    versions 1 and 2 have been read and handled before the deadline has
    passed, the collector returns version 3, generated from the caller's
    query, item identifier and understanding, whenever version 3 arrives
    and however the handler and its detached thread are scheduled. *)
Theorem call_returns_version_3
        (query asin_id understanding : string) (sched : list bool)
        (work : nat -> N) (timeoutMs startTime closed_at t1 t2 t3 : Z) :
  Z.max (Z.max startTime t1 + Z.of_N (work 0%nat)) t2 + Z.of_N (work 1%nat)
  < deadline startTime timeoutMs ->
  let incoming :=
    delivered (trace (sendContextMessages query asin_id understanding)
                     (fun _ => true) 0) in
  let outbound := delivered (session incoming (fun _ => true) sched) in
  let r := receiveAdsListWithTimeout work timeoutMs startTime closed_at
             (combine [t1; t2; t3] outbound) in
  r = generateAds (Context.Build query asin_id understanding) 3
  /\ AdsList.version r = 3.
Proof.
  intros Hclock incoming outbound r.
  unfold r, outbound, incoming.
  rewrite sendContextMessages_trace. cbn [delivered].
  rewrite session_delivered. cbn [combine].
  rewrite collect_three_versions; try assumption;
    rewrite ?generateAds_version; try reflexivity.
  split; reflexivity.
Qed.

(** X13: a call whose sender fails.  If the first write fails the server
    receives nothing and sends nothing, and the collector returns the empty
    default; if the second write fails the server receives the first
    context alone and answers with version 1, generated with an empty
    understanding, which the collector returns. *)
Theorem call_with_failed_send
        (query asin_id understanding : string) (sched : list bool)
        (gen : mt19937) (work : nat -> N) (startTime closed_at : Z)
        (arrivals : list Z) (t1 : Z) :
  let timeoutMs := fst (generateRandomTimeout gen) in
  let first_fails := fun _ : nat => false in
  let second_fails := fun k : nat => Nat.eqb k 0 in
  let incoming write_ok :=
    delivered (trace (sendContextMessages query asin_id understanding)
                     write_ok 0) in
  let outbound write_ok :=
    delivered (session (incoming write_ok) (fun _ => true) sched) in
  receiveAdsListWithTimeout work timeoutMs startTime closed_at
    (combine arrivals (outbound first_fails)) = AdsList.default
  /\ receiveAdsListWithTimeout work timeoutMs startTime closed_at
       (combine [t1] (outbound second_fails))
     = generateAds (Context.Build query asin_id "") 1.
Proof.
  intros timeoutMs first_fails second_fails incoming outbound.
  assert (Hrange : 30 <= timeoutMs <= 120).
  { apply uniform_int_distribution_range. lia. }
  unfold outbound, incoming, first_fails, second_fails.
  rewrite !sendContextMessages_trace. cbn [Nat.eqb delivered].
  rewrite !session_delivered. split.
  - destruct arrivals; cbn [combine]; unfold receiveAdsListWithTimeout, collect;
      cbn [collect_loop]; destruct (timeoutMs <=? _); reflexivity.
  - cbn [combine]. unfold receiveAdsListWithTimeout, collect.
    cbn [collect_loop]. rewrite elapsed_ms_start.
    destruct (Z.leb_spec timeoutMs 0); [lia|].
    destruct (timeoutMs <=? _); reflexivity.
Qed.
End Exchange.

Lemma call_returns_version_3_witness :
  AdsList.version
    (Collector.receiveAdsListWithTimeout quarter_ms 90 0 400000000
       (combine [11000000; 63000000; 115000000]
          (delivered
             (@session reference_runtime
                (delivered (trace (sendContextMessages "coffee maker"
                                     "B000123456" "espresso machine")
                                  (fun _ => true) 0))
                (fun _ => true) [true; false])))) = 3.
Proof.
  exact (proj2 (@call_returns_version_3 reference_runtime "coffee maker"
                  "B000123456" "espresso machine" [true; false]
                  quarter_ms 90 0 400000000 11000000 63000000 115000000
                  eq_refl)).
Defined.

(** ** The buffer: order of arrival *)

Section BufferOrder.

Lemma buffer_assign_commutes k1 v1 k2 v2 m :
  k1 <> k2 ->
  Buffer.assign k1 v1 (Buffer.assign k2 v2 m)
  = Buffer.assign k2 v2 (Buffer.assign k1 v1 m).
Proof.
  intros Hne. induction m as [|[k0 v0] m IH]; cbn [Buffer.assign].
  - destruct (Z.compare_spec k1 k2), (Z.compare_spec k2 k1);
      try lia; reflexivity.
  - destruct (Z.compare_spec k2 k0), (Z.compare_spec k1 k0);
      subst; cbn [Buffer.assign];
      repeat match goal with
             | |- context [?a ?= ?b] => destruct (Z.compare_spec a b); try lia
             end;
      try reflexivity; now rewrite IH.
Qed.

(** X14: two messages of different versions leave the same buffer in
    whichever order they are stored: the buffer does not record the order
    of arrival. *)
Theorem store_order_irrelevant
        (buffer : Buffer.t) (m1 m2 : Z * AdsList.t) :
  AdsList.version (snd m1) <> AdsList.version (snd m2) ->
  store (store buffer m1) m2 = store (store buffer m2) m1.
Proof.
  intros Hne. unfold store. apply buffer_assign_commutes. congruence.
Qed.
End BufferOrder.

Lemma store_order_irrelevant_witness :
  let a1 := {| AdsList.version := 1; AdsList.ads := [] |} in
  let a2 := {| AdsList.version := 2; AdsList.ads := [] |} in
  store (store [] (5, a1)) (9, a2) = store (store [] (9, a2)) (5, a1).
Proof.
  intros a1 a2.
  apply (store_order_irrelevant [] (5, a1) (9, a2)). discriminate.
Defined.

(** ** Logging: the context of a message *)

Section LogContextFacts.

Lemma string_compare_refl s : String.compare s s = Eq.
Proof.
  induction s as [|c s IH]; [reflexivity|]. cbn.
  unfold Ascii.compare. now rewrite N.compare_refl.
Qed.

Lemma string_compare_lt_trans a : forall b c,
  String.compare a b = Lt -> String.compare b c = Lt -> String.compare a c = Lt.
Proof.
  induction a as [|x a IH]; intros [|y b] [|z c]; cbn; try congruence.
  unfold Ascii.compare.
  destruct (N.compare_spec (N_of_ascii x) (N_of_ascii y)) as [Hxy|Hxy|Hxy];
    destruct (N.compare_spec (N_of_ascii y) (N_of_ascii z)) as [Hyz|Hyz|Hyz];
    try congruence; intros H1 H2.
  - rewrite Hxy, Hyz, N.compare_refl. now apply (IH b c).
  - rewrite Hxy. now apply N.compare_lt_iff in Hyz as ->.
  - rewrite <- Hyz. now apply N.compare_lt_iff in Hxy as ->.
  - assert (H : (N_of_ascii x < N_of_ascii z)%N) by lia.
    now apply N.compare_lt_iff in H as ->.
Qed.

Lemma string_compare_cases a b :
  (a = b)
  \/ (String.compare a b = Lt /\ String.compare b a = Gt)
  \/ (String.compare a b = Gt /\ String.compare b a = Lt).
Proof.
  rewrite (String.compare_antisym b a).
  destruct (String.compare a b) eqn:H; cbn; auto.
  left. now apply String.compare_eq_iff.
Qed.

Ltac order_contra :=
  solve [ congruence
        | match goal with
          | H1 : String.compare ?a ?b = Lt, H2 : String.compare ?b ?c = Lt |- _ =>
              pose proof (string_compare_lt_trans a b c H1 H2);
              rewrite ?string_compare_refl in *; congruence
          end ].

Lemma log_assign_commutes k1 v1 k2 v2 m :
  k1 <> k2 ->
  LogContext.assign k1 v1 (LogContext.assign k2 v2 m)
  = LogContext.assign k2 v2 (LogContext.assign k1 v1 m).
Proof.
  intros Hne.
  destruct (string_compare_cases k1 k2) as [?|[[A B]|[A B]]]; [congruence| |];
    (induction m as [|[k0 v0] m IH]; cbn [LogContext.assign];
     [now rewrite A, B|];
     destruct (string_compare_cases k1 k0) as [?|[[C D]|[C D]]];
     destruct (string_compare_cases k2 k0) as [?|[[E F]|[E F]]];
     subst; rewrite ?string_compare_refl, ?C, ?E; cbn [LogContext.assign];
     rewrite ?string_compare_refl, ?A, ?B, ?C, ?D, ?E, ?F;
     try reflexivity; try (now rewrite IH); try order_contra).
Qed.





(** X15: the order in which two different keys are added to a log context
    does not matter: the context, and so the text [build] returns, is the
    same. *)
Theorem log_context_order_irrelevant
        (k1 v1 k2 v2 : string) (m : LogContext.t) (message : string) :
  k1 <> k2 ->
  LogContext.add k1 v1 (LogContext.add k2 v2 m)
  = LogContext.add k2 v2 (LogContext.add k1 v1 m)
  /\ LogContext.build (LogContext.add k1 v1 (LogContext.add k2 v2 m)) message
     = LogContext.build (LogContext.add k2 v2 (LogContext.add k1 v1 m)) message.
Proof.
  intros Hne. unfold LogContext.add.
  now rewrite (log_assign_commutes k1 v1 k2 v2 m Hne).
Qed.


End LogContextFacts.

Lemma log_context_order_irrelevant_witness :
  LogContext.build
    (LogContext.add "version" "2" (LogContext.add "ads_count" "7" []))
    "Received AdsList"
  = "Received AdsList [ads_count=7, version=2]"
  /\ LogContext.build
       (LogContext.add "ads_count" "7" (LogContext.add "version" "2" []))
       "Received AdsList"
     = "Received AdsList [ads_count=7, version=2]".
Proof.
  split; [|reflexivity].
  rewrite (proj2 (log_context_order_irrelevant "version" "2" "ads_count" "7" []
                    "Received AdsList" ltac:(discriminate))).
  reflexivity.
Defined.

(** ** Logging: what is written *)

Section LoggerFacts.

Lemma is_mode_eq name env :
  DebugMode.is_mode name env = true <-> DEBUG_MODE env = Some name.
Proof.
  unfold DebugMode.is_mode. destruct (DEBUG_MODE env) as [s|].
  - rewrite String.eqb_eq. split; congruence.
  - split; discriminate.
Qed.

(** X18: an error message is always written, whatever the logger's level
    and the debug mode, as one line made of the timestamp, the level, the
    component, the thread and the message. *)
Theorem logger_always_writes_errors
        (env : Env) (logger : Logger.t) (timestamp thread_id message : string) :
  Logger.error env logger timestamp thread_id message
  = Some (timestamp ++ " [ERROR] [" ++ Logger.component_ logger ++ "] ["
          ++ thread_id ++ "] " ++ message)%string.
Proof.
  unfold Logger.error, Logger.log.
  destruct logger as [component [ | | | ]]; cbn [Logger.min_level_ Logger.component_];
    rewrite andb_false_r; reflexivity.
Qed.

(** X19: the debug mode overrides [LOG_LEVEL].  Under [ERRORS_ONLY] a logger
    writes error messages only, and not even its own configuration line;
    under [VERBOSE] it writes every message of every level. *)
Theorem logger_debug_mode_overrides_level
        (log_level : option string) (timestamp thread_id component : string)
        (level : Level) (message : string) :
  let quiet := {| LOG_LEVEL := log_level; DEBUG_MODE := Some "ERRORS_ONLY" |} in
  let loud := {| LOG_LEVEL := log_level; DEBUG_MODE := Some "VERBOSE" |} in
  (level <> ERROR ->
   Logger.log quiet (fst (Logger.make quiet timestamp thread_id component))
              timestamp thread_id level message = None)
  /\ snd (Logger.make quiet timestamp thread_id component) = None
  /\ Logger.log loud (fst (Logger.make loud timestamp thread_id component))
                timestamp thread_id level message <> None
  /\ snd (Logger.make loud timestamp thread_id component) <> None.
Proof.
  intros quiet loud. split; [|split; [|split]].
  - intros Hne. destruct level; try reflexivity. congruence.
  - reflexivity.
  - destruct level; discriminate.
  - discriminate.
Qed.

(** X20: the level is a threshold: if a message is written at one level, the
    same message is written at every higher level. *)
Theorem logger_threshold_monotone
        (env : Env) (logger : Logger.t) (timestamp thread_id message : string)
        (level level' : Level) :
  Logger.log env logger timestamp thread_id level message <> None ->
  level_rank level <= level_rank level' ->
  Logger.log env logger timestamp thread_id level' message <> None.
Proof.
  unfold Logger.log. destruct logger as [component min].
  cbn [Logger.min_level_ Logger.component_].
  destruct (DebugMode.is_performance env
            && (Logger.find_npos "elapsed_ms" message
                && Logger.find_npos "generation_ms" message
                && Logger.find_npos "duration_ms" message)) eqn:Hf;
    [ apply andb_true_iff in Hf as [-> ->]
    | assert (Hf' : forall b, DebugMode.is_performance env && b
                       && (Logger.find_npos "elapsed_ms" message
                           && Logger.find_npos "generation_ms" message
                           && Logger.find_npos "duration_ms" message) = false)
        by (intros b; rewrite <- andb_assoc, (andb_comm b), andb_assoc, Hf;
            reflexivity);
      rewrite !Hf' ];
    destruct level, level', min; cbn; intros H Hle;
      try lia; try congruence; discriminate.
Qed.


(** X22: the debug mode filters debug messages only: what is written for an
    info, warn or error message depends on the logger's level alone, not on
    the environment at the time of the call. *)
Theorem logger_mode_filters_debug_only
        (env env' : Env) (logger : Logger.t)
        (timestamp thread_id message : string) :
  Logger.info env logger timestamp thread_id message
  = Logger.info env' logger timestamp thread_id message
  /\ Logger.warn env logger timestamp thread_id message
     = Logger.warn env' logger timestamp thread_id message
  /\ Logger.error env logger timestamp thread_id message
     = Logger.error env' logger timestamp thread_id message.
Proof.
  unfold Logger.info, Logger.warn, Logger.error, Logger.log.
  rewrite !andb_false_r. repeat split.
Qed.
End LoggerFacts.

Lemma logger_threshold_monotone_witness :
  let env := {| LOG_LEVEL := Some "WARN"; DEBUG_MODE := None |} in
  let logger := fst (Logger.make env "2025-01-01T00:00:00.000Z" "1" "CLIENT") in
  Logger.min_level_ logger = WARN
  /\ Logger.log env logger "2025-01-01T00:00:00.000Z" "1" ERROR
                "GetAds RPC failed" <> None.
Proof.
  intros env logger. split; [reflexivity|].
  apply (logger_threshold_monotone env logger _ _ _ WARN ERROR).
  - discriminate.
  - cbn. lia.
Defined.
